(** * Bravyi-Kitaev transform (fermilib/transforms/_bravyi_kitaev.py)

    A shallow embedding of [bravyi_kitaev], [_transform_operator_term],
    [_transform_ladder_operator], [inline_sum] and [inline_product].

    Python objects live in a store ([heap]); a reference is an index into
    it.  The operators are the mutable objects of the program: [+=] and
    [*=] update the object bound to [seed] in place, [+] works on a deep
    copy.  Every function of the source is a computation in a
    state-and-exception monad over that store.

    Coefficients (Python [int]/[float]/[complex]) are kept abstract behind
    the class [Coefficient]: no theorem below uses a law of the
    arithmetic, except the worked example, which is run on exact Gaussian
    rationals. *)

From Stdlib Require Import ZArith QArith.
From stdpp Require Import gmap strings list fin_maps.

Local Open Scope Z_scope.
Local Open Scope nat_scope.

(** ** Coefficients *)

Class Coefficient (C : Type) := {
  c_add : C → C → C;          (* x + y *)
  c_mul : C → C → C;          (* x * y *)
  c_nonzero : C → bool;       (* abs(x) > 0. *)
  c_one : C;                  (* 1. *)
  c_j : C;                    (* 1.j *)
  c_neg_j : C;                (* -1.j *)
  c_half : C;                 (* 0.5 *)
  c_half_j : C;               (* .5j *)
  c_neg_half_j : C            (* -.5j *)
}.

(** Exact complex numbers with rational parts, kept in lowest terms. *)
Record GaussQ := { re : Q; im : Q }.

Definition gq (a b : Q) : GaussQ := {| re := Qred a; im := Qred b |}.

#[export] Instance GaussQ_coefficient : Coefficient GaussQ := {|
  c_add x y := gq (re x + re y) (im x + im y);
  c_mul x y := gq (re x * re y - im x * im y) (re x * im y + im x * re y);
  c_nonzero x := negb (Qeq_bool (re x) 0 && Qeq_bool (im x) 0);
  c_one := gq 1 0;
  c_j := gq 0 1;
  c_neg_j := gq 0 (-1);
  c_half := gq (1 # 2) 0;
  c_half_j := gq 0 (1 # 2);
  c_neg_half_j := gq 0 (- (1 # 2))
|}.

(** ** Pauli terms and the qubit-operator algebra *)

Inductive Pauli := PX | PY | PZ.

#[export] Instance Pauli_eq_dec : EqDecision Pauli.
Proof. solve_decision. Defined.

Definition Pauli_to_nat (p : Pauli) : nat :=
  match p with PX => 0 | PY => 1 | PZ => 2 end.

Definition Pauli_of_nat (n : nat) : Pauli :=
  match n with 0 => PX | 1 => PY | _ => PZ end.

#[export] Instance Pauli_countable : Countable Pauli.
Proof.
  apply (inj_countable' Pauli_to_nat Pauli_of_nat). by intros [].
Defined.

(** The key of a term in [QubitOperator.terms]: a tuple of
    [(qubit, letter)] pairs. *)
Abbreviation PauliTerm := (list (nat * Pauli)).

(** Modelled from the spec: the canonical representation of a Pauli term
    (projectq's [QubitOperator], "order-independent within a term"): the
    constructor sorts the pairs by qubit index, keeping the given order
    among equal indices. *)
Fixpoint insert_local (x : nat * Pauli) (t : PauliTerm) : PauliTerm :=
  match t with
  | [] => [x]
  | y :: t' => if decide (x.1 ≤ y.1) then x :: y :: t' else y :: insert_local x t'
  end.

(** Modelled from the spec: the key under which the constructor stores
    the term [t]. *)
Definition sort_term (t : PauliTerm) : PauliTerm := foldr insert_local [] t.

Section Algebra.
Context {C : Type} `{!Coefficient C}.

#[local] Abbreviation QTerms := (gmap PauliTerm C).

(** Modelled from the spec: [QubitOperator(term, coefficient)] holds the
    single Pauli term [term] with [coefficient]; [QubitOperator()] is
    the zero operator and [QubitOperator((), c)] the identity scaled by
    [c]. *)
Definition single_term (term : PauliTerm) (coefficient : C) : QTerms :=
  {[ sort_term term := coefficient ]}.

(** Modelled from the spec: addition is "term-wise coefficient
    accumulation, merging identical Pauli terms"; "zero-coefficient terms
    produced by cancellation during multiplication/summation are dropped
    by the algebra collaborator". *)
Definition add_coefficients (self addend : option C) : option C :=
  match self, addend with
  | Some s, Some a =>
      if c_nonzero (c_add a s) then Some (c_add s a) else None
  | Some s, None => Some s
  | None, a => a
  end.

(** Modelled from the spec: the terms of [self] after [self += addend]. *)
Definition terms_iadd (self addend : QTerms) : QTerms :=
  merge add_coefficients self addend.

(** Modelled from the spec: the single-qubit Pauli algebra
    "XX=YY=ZZ=I, XY=iZ, YX=-iZ, YZ=iX, ZY=-iX, ZX=iY, XZ=-iY"; [None]
    stands for the identity. *)
Definition pauli_product (l r : Pauli) : C * option Pauli :=
  match l, r with
  | PX, PX | PY, PY | PZ, PZ => (c_one, None)
  | PX, PY => (c_j, Some PZ)
  | PY, PX => (c_neg_j, Some PZ)
  | PY, PZ => (c_j, Some PX)
  | PZ, PY => (c_neg_j, Some PX)
  | PZ, PX => (c_j, Some PY)
  | PX, PZ => (c_neg_j, Some PY)
  end.

(** Modelled from the spec: the product of two canonical Pauli terms,
    "term concatenation with Pauli-algebra reduction": the two sorted
    tuples are merged and letters on the same qubit are multiplied. *)
Fixpoint term_product (left : PauliTerm) : PauliTerm → C → PauliTerm * C :=
  fix go (right : PauliTerm) (coefficient : C) {struct right} :=
    match left, right with
    | [], _ => (right, coefficient)
    | _, [] => (left, coefficient)
    | (lq, lop) :: left', (rq, rop) :: right' =>
        if decide (lq = rq) then
          match pauli_product lop rop with
          | (scalar, Some op) =>
              let '(t, c) := term_product left' right' (c_mul coefficient scalar) in
              ((lq, op) :: t, c)
          | (_, None) => term_product left' right' coefficient
          end
        else if decide (rq < lq) then
          let '(t, c) := go right' coefficient in ((rq, rop) :: t, c)
        else
          let '(t, c) := term_product left' right coefficient in
          ((lq, lop) :: t, c)
    end.

(** Modelled from the spec: multiplication combines every pair of terms,
    "combining coefficients multiplicatively"; equal products are
    accumulated as in addition.  No theorem below depends on what happens
    to products that cancel. *)
Definition accumulate (result : QTerms) (entry : PauliTerm * C) : QTerms :=
  partial_alter (λ old, add_coefficients old (Some entry.2)) entry.1 result.

(** Modelled from the spec: the terms of [self] after
    [self *= multiplier]. *)
Definition terms_imul (self multiplier : QTerms) : QTerms :=
  foldl accumulate ∅
    (l ← map_to_list self; r ← map_to_list multiplier;
     [term_product l.1 r.1 (c_mul l.2 r.2)]).

End Algebra.

(** ** Objects, store and exceptions *)

Inductive exn :=
  | ValueError (msg : string)
  | TypeError (msg : string)
  | IndexError
  | KeyError.

Inductive outcome (A : Type) :=
  | Returned (a : A)
  | Raised (e : exn).
Arguments Returned {A} a.
Arguments Raised {A} e.

(** A node of the Fenwick tree, as far as the transform reads it:
    [node.index]. *)
Record FenwickNode := { index : nat }.

(** Modelled from the spec: the built Fenwick tree
    (fermilib/transforms/_fenwick_tree.py is not among the sources) is
    immutable and answers three queries, each a pure function of the
    queried index; "querying an index outside [0, n_qubits) is an
    error (OutOfRange)", here [None]. *)
Record Fenwick := {
  get_parity_set : nat → option (list FenwickNode);
  get_update_set : nat → option (list FenwickNode);
  get_remainder_set : nat → option (list FenwickNode)
}.

(** A ladder operator is a tuple [(mode, raising-vs-lowering)]; a term of
    a [FermionOperator] is a tuple of ladder operators. *)
Abbreviation LadderOperator := (nat * nat)%type.
Abbreviation FermionTerm := (list (nat * nat)).

Abbreviation loc := nat.

Section Transform.
Context {C : Type} `{!Coefficient C}.

(** What [FenwickTree.__init__] builds for a number of qubits. *)
Variable fenwick : Z → Fenwick.

(** [FermionOperator.terms] is a dict from terms to coefficients.  It is
    kept as the list of its items, in the order in which the dict yields
    them: the transform iterates over it, and the in-place sum depends on
    that order.  The keys of a dict are distinct ([NoDup terms.*1]). *)
Inductive object :=
  | FermionOperator_obj (terms : list (FermionTerm * C))
  | QubitOperator_obj (terms : gmap PauliTerm C)
  | FenwickTree_obj (tree : Fenwick).

(** The store: a reference is a position in it. *)
#[local] Abbreviation heap := (list object).

(** Computations: read and update the store, return a value or raise. *)
Definition M (A : Type) : Type := heap → outcome A * heap.

#[export] Instance M_ret : MRet M := λ A a h, (Returned a, h).

#[export] Instance M_bind : MBind M := λ A B f m h,
  match m h with
  | (Returned a, h') => f a h'
  | (Raised e, h') => (Raised e, h')
  end.

Definition raise {A} (e : exn) : M A := λ h, (Raised e, h).

Definition lift {A} (o : outcome A) : M A := λ h, (o, h).

(** The result of a Fenwick query; out of range raises. *)
Definition query_result {A} (o : option A) : outcome A :=
  match o with
  | Some a => Returned a
  | None => Raised IndexError
  end.

(** A new object gets the next free reference. *)
Definition alloc (o : object) : M loc := λ h, (Returned (length h), h ++ [o]).

Definition load (l : loc) : M object := λ h,
  match h !! l with
  | Some o => (Returned o, h)
  | None => (Raised (TypeError "no such object"), h)
  end.

Definition store (l : loc) (o : object) : M () := λ h, (Returned (), <[l := o]> h).

(** [self.terms] of a [QubitOperator]. *)
Definition qubit_terms (self : loc) : M (gmap PauliTerm C) :=
  o ← load self;
  match o with
  | QubitOperator_obj terms => mret terms
  | _ => raise (TypeError "not a QubitOperator")
  end.

(** [operator.terms] of a [FermionOperator], the documented argument of
    [bravyi_kitaev]; other objects are outside the model and raise. *)
Definition fermion_terms (operator : loc) : M (list (FermionTerm * C)) :=
  o ← load operator;
  match o with
  | FermionOperator_obj terms => mret terms
  | _ => raise (TypeError "Operator of invalid type.")
  end.

Definition fenwick_of (fenwick_tree : loc) : M Fenwick :=
  o ← load fenwick_tree;
  match o with
  | FenwickTree_obj tree => mret tree
  | _ => raise (TypeError "not a FenwickTree")
  end.

(** ** The collaborators on the store

    projectq's [QubitOperator], fermilib's [FenwickTree] and
    [count_qubits] are not among the sources. *)

(** Modelled from the spec: [QubitOperator(term=None, coefficient=1.)]
    creates an operator; without a term, the zero operator. *)
Definition QubitOperator (term : option PauliTerm) (coefficient : C) : M loc :=
  alloc (QubitOperator_obj
           match term with
           | None => ∅
           | Some t => single_term t coefficient
           end).

(** Modelled from the spec: [self += addend] ("in-place accumulation")
    updates [self] and returns it. *)
Definition QubitOperator_iadd (self addend : loc) : M loc :=
  terms ← qubit_terms self;
  o ← load addend;
  match o with
  | QubitOperator_obj addend_terms =>
      _ ← store self (QubitOperator_obj (terms_iadd terms addend_terms));
      mret self
  | _ => raise (TypeError "Cannot add invalid type to QubitOperator.")
  end.

(** Modelled from the spec: [self + addend] is a new operator, [+=] on a
    copy of [self]. *)
Definition QubitOperator_add (self addend : loc) : M loc :=
  terms ← qubit_terms self;
  summand ← alloc (QubitOperator_obj terms);
  QubitOperator_iadd summand addend.

(** Modelled from the spec: [self *= multiplier] ("in-place
    multiplication") updates [self] and returns it. *)
Definition QubitOperator_imul (self multiplier : loc) : M loc :=
  terms ← qubit_terms self;
  o ← load multiplier;
  match o with
  | QubitOperator_obj multiplier_terms =>
      _ ← store self (QubitOperator_obj (terms_imul terms multiplier_terms));
      mret self
  | _ => raise (TypeError "Cannot in-place multiply term of invalid type.")
  end.

(** Modelled from the spec: [FenwickTree(n_qubits)] builds a tree, with
    "no side effects beyond allocating the tree's internal node
    structures".  Construction fails "if n_qubits < 0" only;
    [bravyi_kitaev] never asks for such a tree. *)
Definition FenwickTree (n_qubits : Z) : M loc :=
  alloc (FenwickTree_obj (fenwick n_qubits)).

(** The comprehension [node.index for node in fenwick_tree.query(j)]. *)
Definition node_indices (fenwick_tree : loc)
    (query : Fenwick → nat → option (list FenwickNode)) (j : nat) : M (list nat) :=
  tree ← fenwick_of fenwick_tree;
  nodes ← lift (query_result (query tree j));
  mret (map index nodes).

(** Modelled from the spec: [count_qubits] (fermilib.utils is not among
    the sources) is "the minimum qubit count implied by the operator
    (highest referenced mode index + 1)". *)
Definition qubits_needed (terms : list (FermionTerm * C)) : nat :=
  foldr (λ term n, foldr (λ ladder_operator n, max (ladder_operator.1 + 1) n) n term)
        0 terms.*1.

(** Modelled from the spec: [count_qubits(operator)] reads the operator
    and changes nothing. *)
Definition count_qubits (operator : loc) : M Z :=
  terms ← fermion_terms operator;
  mret (Z.of_nat (qubits_needed terms)).

(** ** The transform

    A generator expression is a list of suspended computations: the loop
    that consumes it runs them one at a time, between its own updates of
    [seed]. *)

(** [for r in summands: seed += r], then [return seed]. *)
Fixpoint inline_sum (seed : loc) (summands : list (M loc)) : M loc :=
  match summands with
  | [] => mret seed
  | next :: summands =>
      r ← next;
      seed ← QubitOperator_iadd seed r;
      inline_sum seed summands
  end.

(** [for r in factors: seed *= r], then [return seed]. *)
Fixpoint inline_product (seed : loc) (factors : list (M loc)) : M loc :=
  match factors with
  | [] => mret seed
  | next :: factors =>
      r ← next;
      seed ← QubitOperator_imul seed r;
      inline_product seed factors
  end.

(** [ladder_operator[1]] is tested for truth: 0 is lowering, anything
    else raising. *)
Definition _transform_ladder_operator
    (ladder_operator : LadderOperator) (fenwick_tree : loc) : M loc :=
  let index := ladder_operator.1 in
  parity_set ← node_indices fenwick_tree get_parity_set index;
  ancestors ← node_indices fenwick_tree get_update_set index;
  ancestor_children ← node_indices fenwick_tree get_remainder_set index;
  let d_coefficient :=
    if decide (ladder_operator.2 = 0) then c_half_j else c_neg_half_j in
  d_majorana_component ←
    QubitOperator
      (Some ((ladder_operator.1, PY) ::
             map (λ index, (index, PZ)) ancestor_children ++
             map (λ index, (index, PX)) ancestors))
      d_coefficient;
  c_majorana_component ←
    QubitOperator
      (Some ((ladder_operator.1, PX) ::
             map (λ index, (index, PZ)) parity_set ++
             map (λ index, (index, PX)) ancestors))
      c_half;
  QubitOperator_add c_majorana_component d_majorana_component.

(** The seed [QubitOperator((), coefficient)] is created when
    [inline_product] is called, before the first factor is drawn. *)
Definition _transform_operator_term
    (term : FermionTerm) (coefficient : C) (fenwick_tree : loc) : M loc :=
  let transformed_ladder_ops :=
    map (λ ladder_operator, _transform_ladder_operator ladder_operator fenwick_tree)
        term in
  seed ← QubitOperator (Some []) coefficient;
  inline_product seed transformed_ladder_ops.

(** The value a dict holds under a key, if any. *)
Fixpoint getitem (term : FermionTerm) (terms : list (FermionTerm * C)) : option C :=
  match terms with
  | [] => None
  | (key, coefficient) :: terms =>
      if decide (key = term) then Some coefficient else getitem term terms
  end.

(** [operator.terms[term]]. *)
Definition terms_getitem (operator : loc) (term : FermionTerm) : M C :=
  terms ← fermion_terms operator;
  match getitem term terms with
  | Some coefficient => mret coefficient
  | None => raise KeyError
  end.

(** [operator] is a reference to the input; [count_qubits] is called
    once more for the check.  The keys of [operator.terms] are drawn in
    the order of the dict, fixed when the generator is created; each
    coefficient is read from the store when its term is drawn. *)
Definition bravyi_kitaev (operator : loc) (n_qubits : option Z) : M loc :=
  n_qubits ← match n_qubits with
             | None => count_qubits operator
             | Some n => mret n
             end;
  needed ← count_qubits operator;
  if decide (n_qubits < needed)%Z then
    raise (ValueError "Invalid number of qubits specified.")
  else
    fenwick_tree ← FenwickTree n_qubits;
    terms ← fermion_terms operator;
    let transformed_terms :=
      map (λ term,
             coefficient ← terms_getitem operator term;
             _transform_operator_term term coefficient fenwick_tree)
          terms.*1 in
    seed ← QubitOperator None c_one;
    inline_sum seed transformed_terms.

(** ** The value of the transform

    What the functions above compute, with the store left out: the
    [terms] of the operator they return, or the exception they raise.
    The lemmas [*_produces] below relate each function to its value. *)

#[export] Instance outcome_ret : MRet outcome := λ A a, Returned a.

#[export] Instance outcome_bind : MBind outcome := λ A B f o,
  match o with
  | Returned a => f a
  | Raised e => Raised e
  end.

(** The "c" and "d" majorana components of the ladder operator on mode
    [i], for parity set [P], update set [U] and remainder set [R]. *)
Definition c_component (i : nat) (P U : list nat) : gmap PauliTerm C :=
  single_term ((i, PX) :: map (λ p, (p, PZ)) P ++ map (λ u, (u, PX)) U) c_half.

Definition d_component (i a : nat) (R U : list nat) : gmap PauliTerm C :=
  single_term ((i, PY) :: map (λ r, (r, PZ)) R ++ map (λ u, (u, PX)) U)
              (if decide (a = 0) then c_half_j else c_neg_half_j).

Definition ladder_value (tree : Fenwick) (ladder_operator : LadderOperator) :
    outcome (gmap PauliTerm C) :=
  P ← query_result (get_parity_set tree ladder_operator.1);
  U ← query_result (get_update_set tree ladder_operator.1);
  R ← query_result (get_remainder_set tree ladder_operator.1);
  mret (terms_iadd (c_component ladder_operator.1 (map index P) (map index U))
                   (d_component ladder_operator.1 ladder_operator.2
                                (map index R) (map index U))).

(** A left-to-right fold that stops at the first exception. *)
Fixpoint fold_value (op : gmap PauliTerm C → gmap PauliTerm C → gmap PauliTerm C)
    (seed : gmap PauliTerm C) (values : list (outcome (gmap PauliTerm C))) :
    outcome (gmap PauliTerm C) :=
  match values with
  | [] => Returned seed
  | next :: values => r ← next; fold_value op (op seed r) values
  end.

Definition term_value (tree : Fenwick) (term : FermionTerm) (coefficient : C) :
    outcome (gmap PauliTerm C) :=
  fold_value terms_imul (single_term [] coefficient) (map (ladder_value tree) term).

Definition transform_value (terms : list (FermionTerm * C)) (n_qubits : option Z) :
    outcome (gmap PauliTerm C) :=
  let n := default (Z.of_nat (qubits_needed terms)) n_qubits in
  if decide (n < Z.of_nat (qubits_needed terms))%Z then
    Raised (ValueError "Invalid number of qubits specified.")
  else
    fold_value terms_iadd ∅
      (map (λ term,
              match getitem term terms with
              | Some coefficient => term_value (fenwick n) term coefficient
              | None => Raised KeyError
              end)
           terms.*1).

(** ** The transform in the words of the specification

    The qubit expression of one ladder operator, the contribution of one
    term (the product, left to right, seeded with the identity scaled by
    the coefficient) and the sum of the contributions (seeded with the
    zero operator), for a tree that answers every query made. *)
Definition indices (nodes : option (list FenwickNode)) : list nat :=
  map index (default [] nodes).

Definition ladder_expression (tree : Fenwick) (ladder_operator : LadderOperator) :
    gmap PauliTerm C :=
  let i := ladder_operator.1 in
  terms_iadd
    (c_component i (indices (get_parity_set tree i)) (indices (get_update_set tree i)))
    (d_component i ladder_operator.2
                 (indices (get_remainder_set tree i)) (indices (get_update_set tree i))).

Definition term_contribution (tree : Fenwick) (term : FermionTerm) (coefficient : C) :
    gmap PauliTerm C :=
  foldl terms_imul (single_term [] coefficient) (map (ladder_expression tree) term).

Definition sum_of_contributions (tree : Fenwick) (terms : list (FermionTerm * C)) :
    gmap PauliTerm C :=
  foldl terms_iadd ∅
    (map (λ entry, term_contribution tree entry.1 entry.2) terms).

(** The tree answers the three queries at index [i]. *)
Definition defined_at (tree : Fenwick) (i : nat) : Prop :=
  is_Some (get_parity_set tree i) ∧ is_Some (get_update_set tree i) ∧
  is_Some (get_remainder_set tree i).

(** [m], run on [h], only adds objects to the store, and returns a new
    operator with terms [v] (or raises what [v] raises). *)
Definition produces (m : M loc) (v : outcome (gmap PauliTerm C)) (h : heap) : Prop :=
  ∃ h', h `prefix_of` h' ∧
    match v with
    | Returned terms =>
        ∃ r, m h = (Returned r, h') ∧ length h ≤ r ∧
             h' !! r = Some (QubitOperator_obj terms)
    | Raised e => m h = (Raised e, h')
    end.

Definition is_ValueError {A} (o : outcome A) : bool :=
  match o with
  | Raised (ValueError _) => true
  | _ => false
  end.

End Transform.

Abbreviation heap := (list object).

(** The qubit count [bravyi_kitaev] works with: the given one, or the
    count implied by the operator when [n_qubits] is [None]. *)
Definition resolved_n_qubits {C} (terms : list (FermionTerm * C)) (n_qubits : option Z) : Z :=
  default (Z.of_nat (qubits_needed terms)) n_qubits.

(** ** Systems of at most one mode

    Modelled from the spec: "for a single-mode system (n_qubits=1) ...
    parity/update/remainder sets are all empty for the sole qubit"; any
    other index is out of range.  [small_fenwick] stands for
    [FenwickTree] on such systems only. *)
Definition small_query (n_qubits : Z) (j : nat) : option (list FenwickNode) :=
  if decide (j = 0 ∧ (0 < n_qubits)%Z) then Some [] else None.

Definition small_fenwick (n_qubits : Z) : Fenwick := {|
  get_parity_set := small_query n_qubits;
  get_update_set := small_query n_qubits;
  get_remainder_set := small_query n_qubits
|}.

(** The lowering ([action = 0]) or raising ([action = 1]) operator on
    mode 0, with coefficient 1. *)
Definition ladder_on_mode_0 (action : nat) : list (FermionTerm * GaussQ) :=
  [([(0, action)], c_one)].

(** The number operator on mode 0 (raising, then lowering). *)
Definition number_operator_0 : list (FermionTerm * GaussQ) :=
  [([(0, 1); (0, 0)], c_one)].

(** The number operator on mode 0 followed by half the identity. *)
Definition number_and_identity : list (FermionTerm * GaussQ) :=
  [([(0, 1); (0, 0)], c_one); ([], c_half)].

(** Three terms on mode 0 whose first two contributions cancel and whose
    third has coefficient 0, and the same items in another order. *)
Definition cancelling_terms : list (FermionTerm * GaussQ) :=
  [([(0, 1)], c_one); ([(0, 1); (0, 0); (0, 1)], gq (-1) 0); ([(0, 0)], gq 0 0)].

Definition cancelling_terms_reordered : list (FermionTerm * GaussQ) :=
  [([(0, 1)], c_one); ([(0, 0)], gq 0 0); ([(0, 1); (0, 0); (0, 1)], gq (-1) 0)].

(** Stores used in the examples. *)
Definition lowering_store : list (object (C:=GaussQ)) :=
  [FermionOperator_obj (ladder_on_mode_0 0)].

Definition number_store : list (object (C:=GaussQ)) :=
  [FermionOperator_obj number_operator_0].

Definition zero_store : list (object (C:=GaussQ)) :=
  [FermionOperator_obj []].

Definition tree_store : list (object (C:=GaussQ)) :=
  [FenwickTree_obj (small_fenwick 1)].

(** Two operators side by side: the identity and 0.5 X0. *)
Definition operators_store : list (object (C:=GaussQ)) :=
  [QubitOperator_obj {[ [] := c_one ]}; QubitOperator_obj {[ [(0, PX)] := c_half ]}].

(** The identity term alone, with coefficient 0.5i. *)
Definition identity_store : list (object (C:=GaussQ)) :=
  [FermionOperator_obj [([], c_half_j)]].

(** The lowering operator on mode 1 next to the tree of one qubit, which
    does not answer at index 1. *)
Definition lowering_on_mode_1 : list (FermionTerm * GaussQ) :=
  [([(1, 0)], c_one)].

Definition mode_1_store : list (object (C:=GaussQ)) :=
  [FermionOperator_obj lowering_on_mode_1; FenwickTree_obj (small_fenwick 1)].

(** The number operator again, in a store that holds a tree before it. *)
Definition shifted_number_store : list (object (C:=GaussQ)) :=
  tree_store ++ number_store.

(** * Properties *)

(** ** Running computations *)

Section Running.
Context {C : Type} `{!Coefficient C}.

Lemma bind_returned {A B} (m : M (C:=C) A) (f : A → M B) h a h' :
  m h = (Returned a, h') → (m ≫= f) h = f a h'.
Proof. intros Hm. unfold mbind, M_bind. by rewrite Hm. Qed.

Lemma bind_raised {A B} (m : M (C:=C) A) (f : A → M B) h e h' :
  m h = (Raised e, h') → (m ≫= f) h = (Raised e, h').
Proof. intros Hm. unfold mbind, M_bind. by rewrite Hm. Qed.

End Running.

(** Runs the first computation of a sequence, given what it returns. *)
Tactic Notation "run_with" uconstr(H) := rewrite (bind_returned _ _ _ _ _ H).

Section Store.
Context {C : Type} `{!Coefficient C}.

Lemma load_lookup (h : list (object (C:=C))) l o :
  h !! l = Some o → load l h = (Returned o, h).
Proof. intros Hl. unfold load. by rewrite Hl. Qed.

Lemma qubit_terms_lookup (h : list (object (C:=C))) l terms :
  h !! l = Some (QubitOperator_obj terms) → qubit_terms l h = (Returned terms, h).
Proof. intros Hl. unfold qubit_terms. by run_with (load_lookup _ _ _ Hl). Qed.

Lemma fermion_terms_lookup (h : list (object (C:=C))) l terms :
  h !! l = Some (FermionOperator_obj terms) → fermion_terms l h = (Returned terms, h).
Proof. intros Hl. unfold fermion_terms. by run_with (load_lookup _ _ _ Hl). Qed.

Lemma fenwick_of_lookup (h : list (object (C:=C))) l tree :
  h !! l = Some (FenwickTree_obj tree) → fenwick_of l h = (Returned tree, h).
Proof. intros Hl. unfold fenwick_of. by run_with (load_lookup _ _ _ Hl). Qed.

Lemma count_qubits_lookup (h : list (object (C:=C))) l terms :
  h !! l = Some (FermionOperator_obj terms) →
  count_qubits l h = (Returned (Z.of_nat (qubits_needed terms)), h).
Proof.
  intros Hl. unfold count_qubits.
  by run_with (fermion_terms_lookup _ _ _ Hl).
Qed.

Lemma terms_getitem_lookup (h : list (object (C:=C))) l terms term coefficient :
  h !! l = Some (FermionOperator_obj terms) → getitem term terms = Some coefficient →
  terms_getitem l term h = (Returned coefficient, h).
Proof.
  intros Hl Ht. unfold terms_getitem.
  run_with (fermion_terms_lookup _ _ _ Hl). by rewrite Ht.
Qed.

(** ** The store only grows below a fresh reference *)

Lemma prefix_insert_beyond (B h : list (object (C:=C))) l o :
  B `prefix_of` h → length B ≤ l → B `prefix_of` <[l := o]> h.
Proof.
  intros [k ->] Hl. exists (<[l - length B := o]> k).
  by rewrite insert_app_r_alt.
Qed.

Lemma lookup_fresh (h : list (object (C:=C))) o : (h ++ [o]) !! length h = Some o.
Proof. by rewrite lookup_app_r, Nat.sub_diag. Qed.

(** ** In-place operators *)

Lemma QubitOperator_iadd_run (h : list (object (C:=C))) self addend s a :
  h !! self = Some (QubitOperator_obj s) → h !! addend = Some (QubitOperator_obj a) →
  QubitOperator_iadd self addend h
  = (Returned self, <[self := QubitOperator_obj (terms_iadd s a)]> h).
Proof.
  intros Hs Ha. unfold QubitOperator_iadd.
  run_with (qubit_terms_lookup _ _ _ Hs).
  by run_with (load_lookup _ _ _ Ha).
Qed.

Lemma QubitOperator_imul_run (h : list (object (C:=C))) self multiplier s a :
  h !! self = Some (QubitOperator_obj s) →
  h !! multiplier = Some (QubitOperator_obj a) →
  QubitOperator_imul self multiplier h
  = (Returned self, <[self := QubitOperator_obj (terms_imul s a)]> h).
Proof.
  intros Hs Ha. unfold QubitOperator_imul.
  run_with (qubit_terms_lookup _ _ _ Hs).
  by run_with (load_lookup _ _ _ Ha).
Qed.

Lemma QubitOperator_run (term : option PauliTerm) (coefficient : C)
    (h : list (object (C:=C))) :
  QubitOperator term coefficient h
  = (Returned (length h),
     h ++ [QubitOperator_obj (from_option (λ t, single_term t coefficient) ∅ term)]).
Proof. by destruct term. Qed.

Lemma QubitOperator_add_run (h : list (object (C:=C))) self addend s a :
  h !! self = Some (QubitOperator_obj s) → h !! addend = Some (QubitOperator_obj a) →
  QubitOperator_add self addend h
  = (Returned (length h), h ++ [QubitOperator_obj (terms_iadd s a)]).
Proof.
  intros Hs Ha. unfold QubitOperator_add.
  run_with (qubit_terms_lookup _ _ _ Hs).
  rewrite (bind_returned (alloc (QubitOperator_obj s)) _ h _ _ eq_refl).
  rewrite (QubitOperator_iadd_run _ _ _ s a).
  - f_equal. rewrite insert_app_r_alt, Nat.sub_diag by done. done.
  - apply lookup_fresh.
  - by apply lookup_app_l_Some.
Qed.

End Store.

Section Refinement.
Context {C : Type} `{!Coefficient C}.
Variable fenwick : Z → Fenwick.

(** ** The ladder operator *)

Lemma node_indices_run (h : list (object (C:=C))) fenwick_tree tree query j :
  h !! fenwick_tree = Some (FenwickTree_obj tree) →
  node_indices fenwick_tree query j h
  = (match query tree j with
     | Some nodes => Returned (map index nodes)
     | None => Raised IndexError
     end, h).
Proof.
  intros Ht. unfold node_indices.
  run_with (fenwick_of_lookup _ _ _ Ht).
  unfold mbind at 1, M_bind, lift. by destruct (query tree j).
Qed.

Lemma _transform_ladder_operator_produces
    (h : list (object (C:=C))) ladder_operator fenwick_tree tree :
  h !! fenwick_tree = Some (FenwickTree_obj tree) →
  produces (_transform_ladder_operator ladder_operator fenwick_tree)
           (ladder_value tree ladder_operator) h.
Proof.
  intros Ht. destruct ladder_operator as [i a].
  unfold _transform_ladder_operator, ladder_value, produces. simpl.
  destruct (get_parity_set tree i) as [P|] eqn:HP; simpl; last first.
  { exists h. split; [done|]. apply bind_raised.
    by rewrite (node_indices_run _ _ _ _ _ Ht), HP. }
  rewrite (bind_returned _ _ h (map index P) h)
    by by rewrite (node_indices_run _ _ _ _ _ Ht), HP.
  destruct (get_update_set tree i) as [U|] eqn:HU; simpl; last first.
  { exists h. split; [done|]. apply bind_raised.
    by rewrite (node_indices_run _ _ _ _ _ Ht), HU. }
  rewrite (bind_returned _ _ h (map index U) h)
    by by rewrite (node_indices_run _ _ _ _ _ Ht), HU.
  destruct (get_remainder_set tree i) as [R|] eqn:HR; simpl; last first.
  { exists h. split; [done|]. apply bind_raised.
    by rewrite (node_indices_run _ _ _ _ _ Ht), HR. }
  rewrite (bind_returned _ _ h (map index R) h)
    by by rewrite (node_indices_run _ _ _ _ _ Ht), HR.
  set (d := d_component i a (map index R) (map index U)).
  set (c := c_component i (map index P) (map index U)).
  exists (h ++ [QubitOperator_obj d; QubitOperator_obj c;
                QubitOperator_obj (terms_iadd c d)]).
  split; [by apply prefix_app_r|]. exists (length h + 2).
  split; [|split; [lia|]].
  - run_with (QubitOperator_run _ _ h).
    run_with (QubitOperator_run _ _ _).
    rewrite (QubitOperator_add_run _ _ _ c d).
    + rewrite !length_app. simpl. rewrite <- !(assoc_L (++)). simpl.
      do 2 f_equal. lia.
    + apply lookup_fresh.
    + apply lookup_app_l_Some, lookup_fresh.
  - rewrite lookup_app_r by lia. by replace (length h + 2 - length h) with 2 by lia.
Qed.

(** ** The two loops

    [inline_sum] and [inline_product] are the same loop around [+=] and
    [*=]: every value drawn from the generator is a new operator, so the
    only object of the store that changes is [seed]. *)

Section Loop.
Variable op : loc → loc → M (C:=C) loc.
Variable value_op : gmap PauliTerm C → gmap PauliTerm C → gmap PauliTerm C.
Variable loop : loc → list (M (C:=C) loc) → M (C:=C) loc.

Hypothesis op_run : ∀ (h : list object) self other s o,
  h !! self = Some (QubitOperator_obj s) → h !! other = Some (QubitOperator_obj o) →
  op self other h = (Returned self, <[self := QubitOperator_obj (value_op s o)]> h).
Hypothesis loop_nil : ∀ seed, loop seed [] = mret seed.
Hypothesis loop_cons : ∀ seed next rest,
  loop seed (next :: rest) = (r ← next; seed ← op seed r; loop seed rest).

Lemma inline_loop_run {X} (B : list object) (xs : list X)
    (f : X → M loc) (g : X → outcome (gmap PauliTerm C)) :
  (∀ x h, x ∈ xs → B `prefix_of` h → produces (f x) (g x) h) →
  ∀ h seed s,
    B `prefix_of` h → length B ≤ seed → h !! seed = Some (QubitOperator_obj s) →
    ∃ h', B `prefix_of` h' ∧ length h ≤ length h' ∧
      match fold_value value_op s (map g xs) with
      | Returned v =>
          loop seed (map f xs) h = (Returned seed, h') ∧
          h' !! seed = Some (QubitOperator_obj v)
      | Raised e => loop seed (map f xs) h = (Raised e, h')
      end.
Proof.
  induction xs as [|x xs IH]; intros Hgen h seed s HB Hseed Hs; simpl.
  { exists h. rewrite loop_nil. done. }
  rewrite loop_cons.
  destruct (Hgen x h) as (h1 & Hh1 & Hx); [by left|done|].
  destruct (g x) as [v|e]; simpl.
  - destruct Hx as (r & Hrun & Hr & Hv).
    assert (h1 !! seed = Some (QubitOperator_obj s)) as Hs1
      by by eapply prefix_lookup_Some.
    pose proof (lookup_lt_Some _ _ _ Hs) as Hlt.
    pose proof (prefix_length _ _ Hh1) as Hlen.
    destruct (IH (λ y h' Hy, Hgen y h' (list_elem_of_further _ _ _ Hy))
                 (<[seed := QubitOperator_obj (value_op s v)]> h1) seed (value_op s v))
      as (h' & HB' & Hlen' & Hrest).
    + apply prefix_insert_beyond; [by etrans|done].
    + done.
    + apply list_lookup_insert_eq. lia.
    + exists h'. split; [done|]. rewrite length_insert in Hlen'. split; [lia|].
      run_with Hrun.
      run_with (op_run _ _ _ _ _ Hs1 Hv).
      done.
  - exists h1. split; [by etrans|]. split; [by apply prefix_length|].
    by apply bind_raised.
Qed.

End Loop.

Lemma inline_sum_run {X} (B : list (object (C:=C))) (xs : list X) f g :
  (∀ x h, x ∈ xs → B `prefix_of` h → produces (f x) (g x) h) →
  ∀ h seed s,
    B `prefix_of` h → length B ≤ seed → h !! seed = Some (QubitOperator_obj s) →
    ∃ h', B `prefix_of` h' ∧ length h ≤ length h' ∧
      match fold_value terms_iadd s (map g xs) with
      | Returned v =>
          inline_sum seed (map f xs) h = (Returned seed, h') ∧
          h' !! seed = Some (QubitOperator_obj v)
      | Raised e => inline_sum seed (map f xs) h = (Raised e, h')
      end.
Proof.
  apply (inline_loop_run QubitOperator_iadd terms_iadd inline_sum); try done.
  apply QubitOperator_iadd_run.
Qed.

Lemma inline_product_run {X} (B : list (object (C:=C))) (xs : list X) f g :
  (∀ x h, x ∈ xs → B `prefix_of` h → produces (f x) (g x) h) →
  ∀ h seed s,
    B `prefix_of` h → length B ≤ seed → h !! seed = Some (QubitOperator_obj s) →
    ∃ h', B `prefix_of` h' ∧ length h ≤ length h' ∧
      match fold_value terms_imul s (map g xs) with
      | Returned v =>
          inline_product seed (map f xs) h = (Returned seed, h') ∧
          h' !! seed = Some (QubitOperator_obj v)
      | Raised e => inline_product seed (map f xs) h = (Raised e, h')
      end.
Proof.
  apply (inline_loop_run QubitOperator_imul terms_imul inline_product); try done.
  apply QubitOperator_imul_run.
Qed.

(** ** One term *)

Lemma _transform_operator_term_produces
    (h : list (object (C:=C))) term coefficient fenwick_tree tree :
  h !! fenwick_tree = Some (FenwickTree_obj tree) →
  produces (_transform_operator_term term coefficient fenwick_tree)
           (term_value tree term coefficient) h.
Proof.
  intros Ht. unfold _transform_operator_term, term_value, produces.
  run_with (QubitOperator_run _ _ h). simpl.
  assert (∀ x (h1 : list object), x ∈ term → h `prefix_of` h1 →
            produces (_transform_ladder_operator x fenwick_tree)
                     (ladder_value tree x) h1) as Hgen.
  { intros x h1 _ Hh1. apply _transform_ladder_operator_produces.
    by eapply prefix_lookup_Some. }
  destruct (inline_product_run h term _ _ Hgen
              (h ++ [QubitOperator_obj (single_term [] coefficient)])
              (length h) (single_term [] coefficient))
    as (h' & Hh & Hlen & Hrun);
    [by apply prefix_app_r|done|apply lookup_fresh|].
  exists h'. split; [done|].
  revert Hrun. destruct (fold_value _ _ _); [|done].
  intros [Hrun Hv]. by exists (length h).
Qed.

(** ** The whole transform *)

Lemma produces_bind {A} (m : M (C:=C) A) (k : A → M loc) a v h :
  m h = (Returned a, h) → produces (k a) v h → produces (m ≫= k) v h.
Proof.
  intros Hm (h' & Hh & Hk). exists h'. split; [done|].
  by run_with Hm.
Qed.

(** Every key a dict yields has a value; with distinct keys, the value of
    its own item. *)
Lemma getitem_key (terms : list (FermionTerm * C)) (term : FermionTerm) :
  term ∈ terms.*1 → is_Some (getitem term terms).
Proof.
  induction terms as [|[key coefficient] terms IH]; simpl; intros Hin.
  - by apply elem_of_nil in Hin.
  - case_decide; [by eexists|]. apply IH.
    apply elem_of_cons in Hin as [?|?]; [by subst|done].
Qed.

Lemma getitem_item (terms : list (FermionTerm * C)) (term : FermionTerm) coefficient :
  NoDup terms.*1 → (term, coefficient) ∈ terms →
  getitem term terms = Some coefficient.
Proof.
  induction terms as [|[key c] terms IH]; simpl; intros Hnodup Hin.
  - by apply elem_of_nil in Hin.
  - apply NoDup_cons in Hnodup as [Hkey Hnodup].
    apply elem_of_cons in Hin as [[= -> ->]|Hin].
    + by rewrite decide_True.
    + rewrite decide_False; [by apply IH|].
      intros ->. apply Hkey. apply list_elem_of_fmap. by exists (term, coefficient).
Qed.

Lemma getitem_head (terms : list (FermionTerm * C)) (term : FermionTerm) coefficient :
  getitem term ((term, coefficient) :: terms) = Some coefficient.
Proof. simpl. by rewrite decide_True. Qed.

Lemma map_keys {A B X} (f : A → X) (l : list (A * B)) :
  map f l.*1 = map (λ entry, f entry.1) l.
Proof. induction l as [|entry l IH]; [done|]. cbn. f_equal. apply IH. Qed.

Lemma resolve_n_qubits_run (h : list (object (C:=C))) operator terms n_qubits :
  h !! operator = Some (FermionOperator_obj terms) →
  match n_qubits with
  | None => count_qubits operator
  | Some n => mret n
  end h = (Returned (default (Z.of_nat (qubits_needed terms)) n_qubits), h).
Proof. intros Ho. destruct n_qubits; [done|]. by apply count_qubits_lookup. Qed.

Lemma bravyi_kitaev_produces (h : list (object (C:=C))) operator terms n_qubits :
  h !! operator = Some (FermionOperator_obj terms) →
  produces (bravyi_kitaev fenwick operator n_qubits)
           (transform_value fenwick terms n_qubits) h.
Proof.
  intros Ho. unfold bravyi_kitaev, transform_value.
  eapply produces_bind; [by apply resolve_n_qubits_run|].
  eapply produces_bind; [by apply count_qubits_lookup|].
  set (n := default _ n_qubits).
  destruct (decide (n < _)%Z) as [Hsmall|Hfit].
  { exists h. done. }
  set (tree := fenwick n).
  set (h1 := h ++ [FenwickTree_obj tree]).
  assert (h1 !! operator = Some (FermionOperator_obj terms)) as Ho1
    by by apply lookup_app_l_Some.
  assert (h1 !! length h = Some (FenwickTree_obj tree)) as Ht1
    by apply lookup_fresh.
  unfold produces. unfold FenwickTree.
  rewrite (bind_returned (alloc _) _ h (length h) h1 eq_refl).
  run_with (fermion_terms_lookup _ _ _ Ho1).
  run_with (QubitOperator_run _ _ h1).
  cbn [from_option].
  assert (∀ term (h2 : list object), term ∈ terms.*1 → h1 `prefix_of` h2 →
            produces (coefficient ← terms_getitem operator term;
                      _transform_operator_term term coefficient (length h))
                     (match getitem term terms with
                      | Some coefficient => term_value tree term coefficient
                      | None => Raised KeyError
                      end) h2) as Hgen.
  { intros term h2 Hin Hh2.
    destruct (getitem_key _ _ Hin) as [coefficient Hterm]. rewrite Hterm.
    eapply produces_bind.
    - eapply terms_getitem_lookup; [|done]. by eapply prefix_lookup_Some.
    - apply _transform_operator_term_produces. by eapply prefix_lookup_Some. }
  destruct (inline_sum_run h1 terms.*1 _ _ Hgen
              (h1 ++ [QubitOperator_obj ∅]) (length h1) ∅)
    as (h' & Hh & Hlen & Hrun);
    [by apply prefix_app_r|done|apply lookup_fresh|].
  exists h'. split; [etrans; [|done]; by apply prefix_app_r|].
  revert Hrun. destruct (fold_value _ _ _); [|done].
  intros [Hrun Hv]. exists (length h1). split; [done|]. split; [|done].
  unfold h1. rewrite length_app. lia.
Qed.

End Refinement.

(** ** The qubit-operator algebra *)

Section AlgebraFacts.
Context {C : Type} `{!Coefficient C}.

Lemma insert_local_perm x t : insert_local x t ≡ₚ x :: t.
Proof.
  induction t as [|y t IH]; simpl; [done|].
  case_decide; [done|]. rewrite IH. apply Permutation_swap.
Qed.

Lemma sort_term_perm t : sort_term t ≡ₚ t.
Proof.
  induction t as [|x t IH]; simpl; [done|].
  rewrite insert_local_perm. by f_equiv.
Qed.

(** The key of a "c" component carries no [Y], the key of a "d" component
    carries one: the two never coincide. *)
Lemma majorana_keys_differ (i : nat) (P U R : list nat) :
  sort_term ((i, PX) :: map (λ p, (p, PZ)) P ++ map (λ u, (u, PX)) U)
  ≠ sort_term ((i, PY) :: map (λ r, (r, PZ)) R ++ map (λ u, (u, PX)) U).
Proof.
  intros Heq.
  assert ((i, PY) ∈ sort_term ((i, PY) :: map (λ r, (r, PZ)) R ++ map (λ u, (u, PX)) U))
    as Hin by (rewrite sort_term_perm; left).
  rewrite <- Heq, sort_term_perm in Hin.
  apply elem_of_cons in Hin as [?|Hin]; [done|].
  apply elem_of_app in Hin as [Hin|Hin];
    apply list_elem_of_In, in_map_iff in Hin as (? & ? & _); done.
Qed.

Lemma terms_iadd_lookup (self addend : gmap PauliTerm C) key :
  terms_iadd self addend !! key = add_coefficients (self !! key) (addend !! key).
Proof.
  unfold terms_iadd. rewrite lookup_merge.
  by destruct (self !! key), (addend !! key).
Qed.

Lemma terms_iadd_empty_l (addend : gmap PauliTerm C) : terms_iadd ∅ addend = addend.
Proof.
  apply map_eq. intros key. rewrite terms_iadd_lookup, lookup_empty.
  by destruct (addend !! key).
Qed.

Lemma terms_iadd_singletons (k1 k2 : PauliTerm) (x y : C) :
  k1 ≠ k2 → terms_iadd {[ k1 := x ]} {[ k2 := y ]} = <[ k2 := y ]> {[ k1 := x ]}.
Proof.
  intros Hne. apply map_eq. intros key. rewrite terms_iadd_lookup.
  destruct (decide (key = k2)) as [->|Hk2].
  - rewrite lookup_insert_eq, lookup_singleton_eq.
    by rewrite lookup_singleton_ne.
  - rewrite lookup_insert_ne by done.
    rewrite (lookup_singleton_ne k2) by done.
    by destruct (_ !! key).
Qed.

Lemma majorana_sum (i a : nat) (P U R : list nat) :
  terms_iadd (c_component i P U) (d_component i a R U)
  = <[ sort_term ((i, PY) :: map (λ r, (r, PZ)) R ++ map (λ u, (u, PX)) U)
       := if decide (a = 0) then c_half_j else c_neg_half_j ]>
      {[ sort_term ((i, PX) :: map (λ p, (p, PZ)) P ++ map (λ u, (u, PX)) U)
         := c_half ]}.
Proof. apply terms_iadd_singletons, majorana_keys_differ. Qed.

End AlgebraFacts.

(** ** The value of the transform *)

Section Values.
Context {C : Type} `{!Coefficient C}.
Variable fenwick : Z → Fenwick.

Lemma highest_mode_ge (term : FermionTerm) (n : nat) :
  n ≤ foldr (λ ladder_operator n, max (ladder_operator.1 + 1) n) n term.
Proof. induction term as [|lo term IH]; simpl; lia. Qed.

Lemma highest_mode_bound (term : FermionTerm) (n : nat) ladder_operator :
  ladder_operator ∈ term →
  ladder_operator.1 < foldr (λ ladder_operator n, max (ladder_operator.1 + 1) n) n term.
Proof.
  induction term as [|lo term IH]; simpl; intros Hin.
  - by apply elem_of_nil in Hin.
  - apply elem_of_cons in Hin as [->|Hin]; [lia|]. specialize (IH Hin). lia.
Qed.

Lemma qubits_needed_bound (terms : list (FermionTerm * C)) (term : FermionTerm)
    ladder_operator :
  term ∈ terms.*1 → ladder_operator ∈ term →
  ladder_operator.1 < qubits_needed terms.
Proof.
  intros Hterm Hin. unfold qubits_needed.
  induction terms.*1 as [|key keys IH]; simpl.
  - by apply elem_of_nil in Hterm.
  - apply elem_of_cons in Hterm as [<-|Hterm]; simpl.
    + by apply highest_mode_bound.
    + eapply Nat.lt_le_trans; [by apply IH|apply highest_mode_ge].
Qed.

Lemma ladder_value_defined (tree : Fenwick) (ladder_operator : LadderOperator) :
  defined_at tree ladder_operator.1 →
  ladder_value (C:=C) tree ladder_operator = Returned (ladder_expression tree ladder_operator).
Proof.
  intros ([P HP] & [U HU] & [R HR]).
  unfold ladder_value, ladder_expression, indices. by rewrite HP, HU, HR.
Qed.

Lemma fold_value_returned (op : gmap PauliTerm C → gmap PauliTerm C → gmap PauliTerm C)
    (seed : gmap PauliTerm C) {X} (f : X → gmap PauliTerm C)
    (g : X → outcome (gmap PauliTerm C)) (xs : list X) :
  (∀ x, x ∈ xs → g x = Returned (f x)) →
  fold_value op seed (map g xs) = Returned (foldl op seed (map f xs)).
Proof.
  revert seed. induction xs as [|x xs IH]; intros seed Hg; simpl; [done|].
  rewrite (Hg x) by left. simpl. apply IH. intros y Hy. apply Hg. by right.
Qed.

Lemma term_value_defined (tree : Fenwick) (term : FermionTerm) (coefficient : C) :
  (∀ ladder_operator, ladder_operator ∈ term → defined_at tree ladder_operator.1) →
  term_value tree term coefficient = Returned (term_contribution tree term coefficient).
Proof.
  intros Hdef. apply fold_value_returned.
  intros lo Hlo. by apply ladder_value_defined, Hdef.
Qed.

Lemma transform_value_defined (terms : list (FermionTerm * C)) (n_qubits : option Z) :
  let n := default (Z.of_nat (qubits_needed terms)) n_qubits in
  NoDup terms.*1 →
  (Z.of_nat (qubits_needed terms) ≤ n)%Z →
  (∀ i, (Z.of_nat i < n)%Z → defined_at (fenwick n) i) →
  transform_value fenwick terms n_qubits
  = Returned (sum_of_contributions (fenwick n) terms).
Proof.
  intros n Hnodup Hfit Hdef. unfold transform_value. fold n.
  rewrite decide_False by lia. rewrite map_keys.
  apply fold_value_returned. intros [term coefficient] Hin. simpl.
  rewrite (getitem_item _ _ _ Hnodup Hin).
  apply term_value_defined. intros lo Hlo. apply Hdef.
  assert (term ∈ terms.*1) as Hkey
    by (apply list_elem_of_fmap; by exists (term, coefficient)).
  pose proof (qubits_needed_bound _ _ _ Hkey Hlo). lia.
Qed.

(** Below the guard of [bravyi_kitaev] nothing raises [ValueError]. *)
Lemma fold_value_no_ValueError
    (op : gmap PauliTerm C → gmap PauliTerm C → gmap PauliTerm C)
    (seed : gmap PauliTerm C) values :
  Forall (λ v, is_ValueError v = false) values →
  is_ValueError (fold_value op seed values) = false.
Proof.
  intros Hall. revert seed.
  induction Hall as [|v values Hv _ IH]; intros seed; simpl; [done|].
  destruct v as [r|e]; simpl; [apply IH|done].
Qed.

Lemma ladder_value_no_ValueError (tree : Fenwick) (ladder_operator : LadderOperator) :
  is_ValueError (ladder_value (C:=C) tree ladder_operator) = false.
Proof.
  unfold ladder_value.
  by destruct (get_parity_set _ _), (get_update_set _ _), (get_remainder_set _ _).
Qed.

Lemma term_value_no_ValueError (tree : Fenwick) (term : FermionTerm) (coefficient : C) :
  is_ValueError (term_value tree term coefficient) = false.
Proof.
  apply fold_value_no_ValueError, Forall_forall. intros v Hv.
  apply list_elem_of_In, in_map_iff in Hv as (lo & <- & _).
  apply ladder_value_no_ValueError.
Qed.

Lemma transform_value_ValueError (terms : list (FermionTerm * C)) (n_qubits : option Z) :
  is_ValueError (transform_value fenwick terms n_qubits) = true ↔
  (default (Z.of_nat (qubits_needed terms)) n_qubits < Z.of_nat (qubits_needed terms))%Z.
Proof.
  unfold transform_value. case_decide as Hn; [done|].
  split; [|done]. intros Hve.
  rewrite fold_value_no_ValueError in Hve; [done|].
  apply Forall_forall. intros v Hv.
  apply list_elem_of_In, in_map_iff in Hv as (term & <- & _).
  destruct (getitem term terms); [|done].
  apply term_value_no_ValueError.
Qed.

(** What a run of [bravyi_kitaev] returns or raises is its value. *)
Lemma bravyi_kitaev_outcome (h : list (object (C:=C))) operator terms n_qubits :
  h !! operator = Some (FermionOperator_obj terms) →
  is_ValueError (bravyi_kitaev fenwick operator n_qubits h).1
  = is_ValueError (transform_value fenwick terms n_qubits).
Proof.
  intros Ho.
  destruct (bravyi_kitaev_produces fenwick h operator terms n_qubits Ho) as (h' & _ & Hrun).
  destruct (transform_value _ _ _) as [v|e].
  - destruct Hrun as (r & -> & _). done.
  - by rewrite Hrun.
Qed.

End Values.

(** * The claims *)

Section Claims.
Context {C : Type} `{!Coefficient C}.
Variable fenwick : Z → Fenwick.

(** C1.  For a ladder operator on mode [i] with action [a], and a built
    tree whose parity, update and remainder sets at [i] are [P], [U] and
    [R], [_transform_ladder_operator] returns a new operator that is the
    sum of the "c" component (X on [i], Z on [P], X on [U]; coefficient
    0.5) and the "d" component (Y on [i], Z on [R], X on [U]; coefficient
    0.5i when [a] is lowering, -0.5i when raising); both terms are in the
    sum with these coefficients. *)
Theorem transform_ladder_operator_majorana_sum
    (h : list (object (C:=C))) (i a : nat) (fenwick_tree : loc) (tree : Fenwick)
    (P U R : list FenwickNode) :
  h !! fenwick_tree = Some (FenwickTree_obj tree) →
  get_parity_set tree i = Some P →
  get_update_set tree i = Some U →
  get_remainder_set tree i = Some R →
  let c_term := (i, PX) :: map (λ p, (p, PZ)) (map index P) ++
                           map (λ u, (u, PX)) (map index U) in
  let d_term := (i, PY) :: map (λ r, (r, PZ)) (map index R) ++
                           map (λ u, (u, PX)) (map index U) in
  let d_coefficient := if decide (a = 0) then c_half_j else c_neg_half_j in
  ∃ r h' result,
    _transform_ladder_operator (i, a) fenwick_tree h = (Returned r, h') ∧
    h' !! r = Some (QubitOperator_obj result) ∧
    result = terms_iadd (single_term c_term c_half) (single_term d_term d_coefficient) ∧
    result !! sort_term c_term = Some c_half ∧
    result !! sort_term d_term = Some d_coefficient.
Proof.
  intros Ht HP HU HR c_term d_term d_coefficient.
  destruct (_transform_ladder_operator_produces h (i, a) _ _ Ht) as (h' & _ & Hrun).
  unfold ladder_value in Hrun. simpl in Hrun. rewrite HP, HU, HR in Hrun. simpl in Hrun.
  destruct Hrun as (r & Hrun & _ & Hr).
  exists r, h', (terms_iadd (c_component i (map index P) (map index U))
                            (d_component i a (map index R) (map index U))).
  split; [done|]. split; [done|]. split; [done|].
  rewrite majorana_sum. fold c_term d_term d_coefficient. split.
  - rewrite lookup_insert_ne by (symmetry; apply majorana_keys_differ).
    apply lookup_singleton_eq.
  - apply lookup_insert_eq.
Qed.

(** C2.  With an explicit [n_qubits = k], [bravyi_kitaev] raises
    [ValueError] exactly when [k < count_qubits(operator)]; it then raises
    'Invalid number of qubits specified.' and leaves the store as it
    was: no tree has been built and no operator created. *)
Theorem bravyi_kitaev_invalid_n_qubits
    (h : list (object (C:=C))) (operator : loc) (terms : list (FermionTerm * C)) (k : Z) :
  h !! operator = Some (FermionOperator_obj terms) →
  (is_ValueError (bravyi_kitaev fenwick operator (Some k) h).1 = true
   ↔ (k < Z.of_nat (qubits_needed terms))%Z) ∧
  ((k < Z.of_nat (qubits_needed terms))%Z →
   bravyi_kitaev fenwick operator (Some k) h
   = (Raised (ValueError "Invalid number of qubits specified."), h)).
Proof.
  intros Ho. split.
  - rewrite (bravyi_kitaev_outcome fenwick h operator terms _ Ho).
    apply transform_value_ValueError.
  - intros Hk. unfold bravyi_kitaev.
    run_with (resolve_n_qubits_run h operator terms (Some k) Ho).
    run_with (count_qubits_lookup _ _ _ Ho).
    simpl. by rewrite decide_True.
Qed.

(** C3.  The operator returned by [_transform_ladder_operator] holds
    exactly two Pauli terms: the "c" and the "d" component never merge
    and never cancel. *)
Theorem transform_ladder_operator_two_terms
    (h : list (object (C:=C))) (ladder_operator : LadderOperator)
    (fenwick_tree : loc) (tree : Fenwick) :
  h !! fenwick_tree = Some (FenwickTree_obj tree) →
  defined_at tree ladder_operator.1 →
  ∃ r h' result,
    _transform_ladder_operator ladder_operator fenwick_tree h = (Returned r, h') ∧
    h' !! r = Some (QubitOperator_obj result) ∧
    size result = 2.
Proof.
  intros Ht Hdef.
  destruct (_transform_ladder_operator_produces h ladder_operator _ _ Ht)
    as (h' & _ & Hrun).
  rewrite ladder_value_defined in Hrun by done.
  destruct Hrun as (r & Hrun & _ & Hr).
  exists r, h', (ladder_expression tree ladder_operator).
  split; [done|]. split; [done|].
  unfold ladder_expression. rewrite majorana_sum.
  rewrite map_size_insert_None, map_size_singleton; [done|].
  apply lookup_singleton_ne, majorana_keys_differ.
Qed.

(** C4.  [terms] are the items of the input's dict, in the order in which
    the dict yields them (the keys of a dict are distinct).  When the
    qubit count fits the operator and the tree answers the queries in its
    range, [bravyi_kitaev] returns a new operator: the sum, seeded with
    the zero operator and taken in that order, of the contributions of
    the terms, each the product, in left-to-right order, of the
    expressions of its ladder operators, seeded with the identity scaled
    by the coefficient. *)
Theorem bravyi_kitaev_sum_of_products
    (h : list (object (C:=C))) (operator : loc) (terms : list (FermionTerm * C))
    (n_qubits : option Z) :
  h !! operator = Some (FermionOperator_obj terms) →
  NoDup terms.*1 →
  (Z.of_nat (qubits_needed terms) ≤ resolved_n_qubits terms n_qubits)%Z →
  (∀ i, (Z.of_nat i < resolved_n_qubits terms n_qubits)%Z →
        defined_at (fenwick (resolved_n_qubits terms n_qubits)) i) →
  ∃ r h',
    bravyi_kitaev fenwick operator n_qubits h = (Returned r, h') ∧
    h' !! r = Some (QubitOperator_obj
      (foldl terms_iadd ∅
         (map (λ entry,
                 foldl terms_imul (single_term [] entry.2)
                   (map (ladder_expression (fenwick (resolved_n_qubits terms n_qubits)))
                        entry.1))
              terms))).
Proof.
  intros Ho Hnodup Hfit Hdef.
  destruct (bravyi_kitaev_produces fenwick h operator terms n_qubits Ho)
    as (h' & _ & Hrun).
  rewrite transform_value_defined in Hrun by done.
  destruct Hrun as (r & Hrun & _ & Hr). by exists r, h'.
Qed.

(** C5.  Called with [n_qubits=None], [bravyi_kitaev] does what it does
    with [n_qubits=count_qubits(operator)]: same result, same store. *)
Theorem bravyi_kitaev_infers_n_qubits
    (h : list (object (C:=C))) (operator : loc) (terms : list (FermionTerm * C)) :
  h !! operator = Some (FermionOperator_obj terms) →
  bravyi_kitaev fenwick operator None h
  = bravyi_kitaev fenwick operator (Some (Z.of_nat (qubits_needed terms))) h.
Proof.
  intros Ho. unfold bravyi_kitaev.
  run_with (resolve_n_qubits_run h operator terms None Ho).
  by run_with (resolve_n_qubits_run h operator terms (Some _) Ho).
Qed.

(** C7.  The transform of the zero fermionic operator (no terms) is a new
    zero qubit operator (no terms). *)
Theorem bravyi_kitaev_zero_operator
    (h : list (object (C:=C))) (operator : loc) (n_qubits : option Z) :
  h !! operator = Some (FermionOperator_obj []) →
  (0 ≤ default 0 n_qubits)%Z →
  ∃ r h',
    bravyi_kitaev fenwick operator n_qubits h = (Returned r, h') ∧
    h !! r = None ∧ h' !! r = Some (QubitOperator_obj ∅).
Proof.
  intros Ho Hn.
  destruct (bravyi_kitaev_produces fenwick h operator [] n_qubits Ho)
    as (h' & _ & Hrun).
  unfold transform_value, qubits_needed in Hrun. simpl in Hrun.
  rewrite decide_False in Hrun by (destruct n_qubits; simpl in *; lia).
  destruct Hrun as (r & Hrun & Hfresh & Hr).
  exists r, h'. split; [done|]. split; [|done]. by apply lookup_ge_None.
Qed.

(** C8.  Two calls of [bravyi_kitaev] on the same operator and qubit
    count, one after the other, end alike: they return two distinct
    operators with the same terms and coefficients (the first one still
    intact after the second call), or raise the same exception. *)
Theorem bravyi_kitaev_deterministic
    (h : list (object (C:=C))) (operator : loc) (terms : list (FermionTerm * C))
    (n_qubits : option Z) :
  h !! operator = Some (FermionOperator_obj terms) →
  let first := bravyi_kitaev fenwick operator n_qubits h in
  let second := bravyi_kitaev fenwick operator n_qubits first.2 in
  match first.1, second.1 with
  | Returned r1, Returned r2 =>
      r1 ≠ r2 ∧
      ∃ result, second.2 !! r1 = Some (QubitOperator_obj result) ∧
                second.2 !! r2 = Some (QubitOperator_obj result)
  | Raised e1, Raised e2 => e1 = e2
  | _, _ => False
  end.
Proof.
  intros Ho first second. subst second first.
  destruct (bravyi_kitaev_produces fenwick h operator terms n_qubits Ho)
    as (h1 & Hh1 & Hrun1).
  assert (h1 !! operator = Some (FermionOperator_obj terms)) as Ho1
    by by eapply prefix_lookup_Some.
  destruct (bravyi_kitaev_produces fenwick h1 operator terms n_qubits Ho1)
    as (h2 & Hh2 & Hrun2).
  destruct (transform_value _ _ _) as [v|e].
  - destruct Hrun1 as (r1 & Hrun1 & _ & Hr1). rewrite Hrun1. simpl.
    destruct Hrun2 as (r2 & Hrun2 & Hfresh & Hr2). rewrite Hrun2. simpl.
    pose proof (lookup_lt_Some _ _ _ Hr1). split; [lia|].
    exists v. split; [|done]. by eapply prefix_lookup_Some.
  - rewrite Hrun1. simpl. by rewrite Hrun2.
Qed.

(** C9.  [bravyi_kitaev] does not modify its input: after the call,
    whether it returned or raised, the operator has the terms and
    coefficients it had, and so has every object that was in the store. *)
Theorem bravyi_kitaev_preserves_operator
    (h : list (object (C:=C))) (operator : loc) (terms : list (FermionTerm * C))
    (n_qubits : option Z) :
  h !! operator = Some (FermionOperator_obj terms) →
  (bravyi_kitaev fenwick operator n_qubits h).2 !! operator
  = Some (FermionOperator_obj terms) ∧
  h `prefix_of` (bravyi_kitaev fenwick operator n_qubits h).2.
Proof.
  intros Ho.
  destruct (bravyi_kitaev_produces fenwick h operator terms n_qubits Ho)
    as (h' & Hh & Hrun).
  assert ((bravyi_kitaev fenwick operator n_qubits h).2 = h') as ->.
  { destruct (transform_value _ _ _); [|by rewrite Hrun].
    destruct Hrun as (r & -> & _). done. }
  split; [|done]. by eapply prefix_lookup_Some.
Qed.

(** C10.  Called with [n_qubits=None], [bravyi_kitaev] never raises
    [ValueError]: the inferred count passes the check. *)
Theorem bravyi_kitaev_inferred_never_invalid
    (h : list (object (C:=C))) (operator : loc) :
  is_ValueError (bravyi_kitaev fenwick operator None h).1 = false.
Proof.
  destruct (h !! operator) as [[terms|terms|tree]|] eqn:Ho;
    [|unfold bravyi_kitaev, count_qubits, fermion_terms, load, mbind, M_bind;
      by rewrite Ho..].
  rewrite (bravyi_kitaev_outcome fenwick h operator terms None Ho).
  apply not_true_is_false. rewrite transform_value_ValueError. simpl. lia.
Qed.

End Claims.

(** ** The single-mode example *)

Lemma transform_value_single_mode (fenwick : Z → Fenwick) (action : nat)
    (n_qubits : option Z) :
  get_parity_set (fenwick 1%Z) 0 = Some [] →
  get_update_set (fenwick 1%Z) 0 = Some [] →
  get_remainder_set (fenwick 1%Z) 0 = Some [] →
  n_qubits = None ∨ n_qubits = Some 1%Z →
  transform_value fenwick (ladder_on_mode_0 action) n_qubits
  = Returned {[ [(0, PX)] := gq (1 # 2) 0;
                [(0, PY)] := if decide (action = 0) then gq 0 (1 # 2)
                             else gq 0 (- (1 # 2)) ]}.
Proof.
  intros HP HU HR Hn. unfold transform_value, ladder_on_mode_0, qubits_needed.
  cbn [fmap list_fmap fst snd foldr map]. rewrite getitem_head.
  assert (default (Z.of_nat ((0 + 1) `max` 0)) n_qubits = 1%Z) as ->
    by by destruct Hn as [-> | ->].
  rewrite decide_False by (simpl; lia).
  unfold term_value. cbn [map fold_value]. unfold ladder_value. cbn [fst snd].
  rewrite HP, HU, HR. cbn [query_result mbind outcome_bind mret outcome_ret map].
  f_equal. destruct action; vm_compute; reflexivity.
Qed.

(** C6.  For a single-mode system, whose tree has empty parity, update
    and remainder sets at qubit 0, [bravyi_kitaev] maps the lowering
    operator on mode 0 ([action = 0]) to 0.5 X0 + 0.5i Y0 and the raising
    operator ([action = 1]) to 0.5 X0 - 0.5i Y0, with [n_qubits] omitted
    or equal to 1.  Coefficients are exact here. *)
Theorem bravyi_kitaev_single_mode
    (fenwick : Z → Fenwick) (h : list (object (C:=GaussQ))) (operator : loc)
    (action : nat) (n_qubits : option Z) :
  get_parity_set (fenwick 1%Z) 0 = Some [] →
  get_update_set (fenwick 1%Z) 0 = Some [] →
  get_remainder_set (fenwick 1%Z) 0 = Some [] →
  n_qubits = None ∨ n_qubits = Some 1%Z →
  h !! operator = Some (FermionOperator_obj (ladder_on_mode_0 action)) →
  ∃ r h',
    bravyi_kitaev fenwick operator n_qubits h = (Returned r, h') ∧
    h' !! r = Some (QubitOperator_obj
      {[ [(0, PX)] := gq (1 # 2) 0;
         [(0, PY)] := if decide (action = 0) then gq 0 (1 # 2)
                      else gq 0 (- (1 # 2)) ]}).
Proof.
  intros HP HU HR Hn Ho.
  destruct (bravyi_kitaev_produces fenwick h operator _ n_qubits Ho)
    as (h' & _ & Hrun).
  rewrite transform_value_single_mode in Hrun by done.
  destruct Hrun as (r & Hrun & _ & Hr). by exists r, h'.
Qed.

(** ** The claims at concrete inputs *)

Lemma small_fenwick_in_range (i : nat) :
  (Z.of_nat i < 1)%Z → defined_at (small_fenwick 1) i.
Proof.
  intros Hi. assert (i = 0) as -> by lia.
  repeat split; by eexists.
Qed.

(** The number operator on mode 0 becomes 0.5 I - 0.5 Z0; the operator
    returned is the third object of the store, after the input and the
    tree. *)
Example number_operator_transform :
  ∃ h', bravyi_kitaev small_fenwick 0 None number_store = (Returned 2, h') ∧
        h' !! 2 = Some (QubitOperator_obj
                          {[ [] := gq (1 # 2) 0; [(0, PZ)] := gq (- (1 # 2)) 0 ]}).
Proof. eexists. split; [by vm_compute|]. by vm_compute. Qed.

(** The order in which the dict yields its items matters to the in-place
    sum: the first two contributions of [cancelling_terms] cancel and the
    third, of coefficient 0, is then stored as it is; in the other order
    nothing is left. *)
Example bravyi_kitaev_order_matters :
  (∃ h', bravyi_kitaev small_fenwick 0 None [FermionOperator_obj cancelling_terms]
         = (Returned 2, h') ∧
         h' !! 2 = Some (QubitOperator_obj
                           {[ [(0, PX)] := gq 0 0; [(0, PY)] := gq 0 0 ]})) ∧
  (∃ h', bravyi_kitaev small_fenwick 0 None
           [FermionOperator_obj cancelling_terms_reordered]
         = (Returned 2, h') ∧
         h' !! 2 = Some (QubitOperator_obj ∅)).
Proof. split; (eexists; split; [by vm_compute|]; by vm_compute). Qed.

(** A qubit count below the one the operator needs is refused. *)
Example lowering_operator_refused :
  bravyi_kitaev small_fenwick 0 (Some 0%Z) lowering_store
  = (Raised (ValueError "Invalid number of qubits specified."), lowering_store).
Proof. by vm_compute. Qed.

Lemma transform_ladder_operator_majorana_sum_witness :
  ∃ r h' result,
    _transform_ladder_operator (0, 0) 0 tree_store = (Returned r, h') ∧
    h' !! r = Some (QubitOperator_obj result) ∧
    result = terms_iadd (single_term [(0, PX)] c_half) (single_term [(0, PY)] c_half_j) ∧
    result !! sort_term [(0, PX)] = Some c_half ∧
    result !! sort_term [(0, PY)] = Some c_half_j.
Proof.
  apply (transform_ladder_operator_majorana_sum
           tree_store 0 0 0 (small_fenwick 1) [] [] []); reflexivity.
Defined.

Lemma bravyi_kitaev_invalid_n_qubits_witness :
  (is_ValueError (bravyi_kitaev small_fenwick 0 (Some 0%Z) number_store).1 = true
   ↔ (0 < Z.of_nat (qubits_needed number_operator_0))%Z) ∧
  ((0 < Z.of_nat (qubits_needed number_operator_0))%Z →
   bravyi_kitaev small_fenwick 0 (Some 0%Z) number_store
   = (Raised (ValueError "Invalid number of qubits specified."), number_store)).
Proof.
  apply (bravyi_kitaev_invalid_n_qubits small_fenwick number_store 0 number_operator_0).
  reflexivity.
Defined.

Lemma transform_ladder_operator_two_terms_witness :
  ∃ r h' result,
    _transform_ladder_operator (0, 1) 0 tree_store = (Returned r, h') ∧
    h' !! r = Some (QubitOperator_obj result) ∧
    size result = 2.
Proof.
  apply (transform_ladder_operator_two_terms tree_store (0, 1) 0 (small_fenwick 1)).
  - reflexivity.
  - apply small_fenwick_in_range. simpl. lia.
Defined.

Lemma bravyi_kitaev_sum_of_products_witness :
  ∃ r h',
    bravyi_kitaev small_fenwick 0 None [FermionOperator_obj number_and_identity]
    = (Returned r, h') ∧
    h' !! r = Some (QubitOperator_obj
      (foldl terms_iadd ∅
         (map (λ entry,
                 foldl terms_imul (single_term [] entry.2)
                   (map (ladder_expression
                           (small_fenwick (resolved_n_qubits number_and_identity None)))
                        entry.1))
              number_and_identity))).
Proof.
  apply (bravyi_kitaev_sum_of_products small_fenwick
           [FermionOperator_obj number_and_identity] 0 number_and_identity None).
  - reflexivity.
  - apply (bool_decide_unpack _). by vm_compute.
  - by vm_compute.
  - change (resolved_n_qubits number_and_identity None) with 1%Z.
    apply small_fenwick_in_range.
Defined.

Lemma bravyi_kitaev_infers_n_qubits_witness :
  bravyi_kitaev small_fenwick 0 None number_store
  = bravyi_kitaev small_fenwick 0 (Some (Z.of_nat (qubits_needed number_operator_0)))
                  number_store.
Proof.
  apply (bravyi_kitaev_infers_n_qubits small_fenwick number_store 0 number_operator_0).
  reflexivity.
Defined.

Lemma bravyi_kitaev_single_mode_witness :
  (∃ r h',
     bravyi_kitaev small_fenwick 0 None lowering_store = (Returned r, h') ∧
     h' !! r = Some (QubitOperator_obj
       {[ [(0, PX)] := gq (1 # 2) 0; [(0, PY)] := gq 0 (1 # 2) ]})) ∧
  (∃ r h',
     bravyi_kitaev small_fenwick 0 (Some 1%Z)
       [FermionOperator_obj (ladder_on_mode_0 1)] = (Returned r, h') ∧
     h' !! r = Some (QubitOperator_obj
       {[ [(0, PX)] := gq (1 # 2) 0; [(0, PY)] := gq 0 (- (1 # 2)) ]})).
Proof.
  split.
  - apply (bravyi_kitaev_single_mode small_fenwick lowering_store 0 0 None);
      try reflexivity. by left.
  - apply (bravyi_kitaev_single_mode small_fenwick
             [FermionOperator_obj (ladder_on_mode_0 1)] 0 1 (Some 1%Z));
      try reflexivity. by right.
Defined.

Lemma bravyi_kitaev_zero_operator_witness :
  ∃ r h',
    bravyi_kitaev small_fenwick 0 None zero_store = (Returned r, h') ∧
    zero_store !! r = None ∧ h' !! r = Some (QubitOperator_obj ∅).
Proof.
  apply (bravyi_kitaev_zero_operator small_fenwick zero_store 0 None).
  - reflexivity.
  - simpl. lia.
Defined.

Lemma bravyi_kitaev_deterministic_witness :
  let first := bravyi_kitaev small_fenwick 0 None number_store in
  let second := bravyi_kitaev small_fenwick 0 None first.2 in
  match first.1, second.1 with
  | Returned r1, Returned r2 =>
      r1 ≠ r2 ∧
      ∃ result, second.2 !! r1 = Some (QubitOperator_obj result) ∧
                second.2 !! r2 = Some (QubitOperator_obj result)
  | Raised e1, Raised e2 => e1 = e2
  | _, _ => False
  end.
Proof.
  apply (bravyi_kitaev_deterministic small_fenwick number_store 0 number_operator_0 None).
  reflexivity.
Defined.

Lemma bravyi_kitaev_preserves_operator_witness :
  (bravyi_kitaev small_fenwick 0 (Some 0%Z) number_store).2 !! 0
  = Some (FermionOperator_obj number_operator_0) ∧
  number_store `prefix_of` (bravyi_kitaev small_fenwick 0 (Some 0%Z) number_store).2.
Proof.
  apply (bravyi_kitaev_preserves_operator small_fenwick number_store 0
           number_operator_0 (Some 0%Z)).
  reflexivity.
Defined.

(** * Further properties of the five functions *)

(** ** The loops on operators that exist already *)

Section LoopFacts.
Context {C : Type} `{!Coefficient C}.
Variable op : loc → loc → M (C:=C) loc.
Variable value_op : gmap PauliTerm C → gmap PauliTerm C → gmap PauliTerm C.
Variable loop : loc → list (M (C:=C) loc) → M (C:=C) loc.

Hypothesis op_run : ∀ (h : list object) self other s o,
  h !! self = Some (QubitOperator_obj s) → h !! other = Some (QubitOperator_obj o) →
  op self other h = (Returned self, <[self := QubitOperator_obj (value_op s o)]> h).
Hypothesis loop_nil : ∀ seed, loop seed [] = mret seed.
Hypothesis loop_cons : ∀ seed next rest,
  loop seed (next :: rest) = (r ← next; seed ← op seed r; loop seed rest).

(** The operators at [rs], none of them [seed], have terms [vs]. *)
Let others (h : list (object (C:=C))) (seed : loc) :=
  Forall2 (λ r v, h !! r = Some (QubitOperator_obj v) ∧ r ≠ seed).

Lemma others_insert (h : list (object (C:=C))) seed o rs vs :
  others h seed rs vs → others (<[seed := o]> h) seed rs vs.
Proof.
  intros Hrs. eapply Forall2_impl; [exact Hrs|].
  intros r v [Hr Hne]. split; [|done]. by rewrite list_lookup_insert_ne.
Qed.

Lemma inline_loop_existing seed rs : ∀ vs (h : list (object (C:=C))) s,
  h !! seed = Some (QubitOperator_obj s) → others h seed rs vs →
  loop seed (map mret rs) h
  = (Returned seed, <[seed := QubitOperator_obj (foldl value_op s vs)]> h).
Proof.
  induction rs as [|r rs IH]; intros vs h s Hs Hrs.
  - apply Forall2_nil_inv_l in Hrs as ->. simpl.
    rewrite loop_nil. by rewrite list_insert_id.
  - apply Forall2_cons_inv_l in Hrs as (v & vs' & [Hr Hne] & Hrs & ->). simpl.
    rewrite loop_cons.
    rewrite (bind_returned (mret r) _ h r h eq_refl).
    run_with (op_run _ _ _ _ _ Hs Hr).
    pose proof (lookup_lt_Some _ _ _ Hs) as Hlt.
    rewrite (IH vs' _ (value_op s v)).
    + by rewrite list_insert_insert_eq.
    + by apply list_lookup_insert_eq.
    + by apply others_insert.
Qed.

(** A summand that raises ends the loop: the seed keeps what was added
    before, and what follows in the generator is never run. *)
Lemma inline_loop_raises seed rs next rest e : ∀ vs (h h' : list (object (C:=C))) s,
  h !! seed = Some (QubitOperator_obj s) → others h seed rs vs →
  next (<[seed := QubitOperator_obj (foldl value_op s vs)]> h) = (Raised e, h') →
  loop seed (map mret rs ++ next :: rest) h = (Raised e, h').
Proof.
  induction rs as [|r rs IH]; intros vs h h' s Hs Hrs Hnext.
  - apply Forall2_nil_inv_l in Hrs as ->. simpl in *.
    rewrite list_insert_id in Hnext by done.
    rewrite loop_cons. by apply bind_raised.
  - apply Forall2_cons_inv_l in Hrs as (v & vs' & [Hr Hne] & Hrs & ->). simpl in *.
    rewrite loop_cons.
    rewrite (bind_returned (mret r) _ h r h eq_refl).
    run_with (op_run _ _ _ _ _ Hs Hr).
    pose proof (lookup_lt_Some _ _ _ Hs) as Hlt.
    apply (IH vs' _ _ (value_op s v)).
    + by apply list_lookup_insert_eq.
    + by apply others_insert.
    + by rewrite list_insert_insert_eq.
Qed.

End LoopFacts.

Section Loops.
Context {C : Type} `{!Coefficient C}.

(** X1.  [inline_sum] over operators that exist already, none of them the
    seed, adds them into the seed in place, in order, and returns the
    seed itself: no other object of the store changes, the summands are
    as they were. *)
Theorem inline_sum_in_place
    (h : list (object (C:=C))) (seed : loc) (s : gmap PauliTerm C)
    (rs : list loc) (vs : list (gmap PauliTerm C)) :
  h !! seed = Some (QubitOperator_obj s) →
  Forall2 (λ r v, h !! r = Some (QubitOperator_obj v) ∧ r ≠ seed) rs vs →
  inline_sum seed (map mret rs) h
  = (Returned seed, <[seed := QubitOperator_obj (foldl terms_iadd s vs)]> h).
Proof.
  apply (inline_loop_existing QubitOperator_iadd terms_iadd inline_sum); try done.
  apply QubitOperator_iadd_run.
Qed.

(** X2.  [inline_product] over operators that exist already, none of them
    the seed, multiplies them into the seed in place, left to right, and
    returns the seed itself; no other object changes. *)
Theorem inline_product_in_place
    (h : list (object (C:=C))) (seed : loc) (s : gmap PauliTerm C)
    (rs : list loc) (vs : list (gmap PauliTerm C)) :
  h !! seed = Some (QubitOperator_obj s) →
  Forall2 (λ r v, h !! r = Some (QubitOperator_obj v) ∧ r ≠ seed) rs vs →
  inline_product seed (map mret rs) h
  = (Returned seed, <[seed := QubitOperator_obj (foldl terms_imul s vs)]> h).
Proof.
  apply (inline_loop_existing QubitOperator_imul terms_imul inline_product); try done.
  apply QubitOperator_imul_run.
Qed.

(** X3.  When a summand raises, [inline_sum] raises the same exception:
    the seed keeps the sum of the summands before it (the seed is not
    restored), and the summands after it are never drawn. *)
Theorem inline_sum_stops_at_exception
    (h h' : list (object (C:=C))) (seed : loc) (s : gmap PauliTerm C)
    (rs : list loc) (vs : list (gmap PauliTerm C))
    (next : M loc) (rest : list (M loc)) (e : exn) :
  h !! seed = Some (QubitOperator_obj s) →
  Forall2 (λ r v, h !! r = Some (QubitOperator_obj v) ∧ r ≠ seed) rs vs →
  next (<[seed := QubitOperator_obj (foldl terms_iadd s vs)]> h) = (Raised e, h') →
  inline_sum seed (map mret rs ++ next :: rest) h = (Raised e, h').
Proof.
  apply (inline_loop_raises QubitOperator_iadd terms_iadd inline_sum); try done.
  apply QubitOperator_iadd_run.
Qed.

(** X4.  When a factor raises, [inline_product] raises the same
    exception: the seed keeps the product of the factors before it, and
    the factors after it are never drawn. *)
Theorem inline_product_stops_at_exception
    (h h' : list (object (C:=C))) (seed : loc) (s : gmap PauliTerm C)
    (rs : list loc) (vs : list (gmap PauliTerm C))
    (next : M loc) (rest : list (M loc)) (e : exn) :
  h !! seed = Some (QubitOperator_obj s) →
  Forall2 (λ r v, h !! r = Some (QubitOperator_obj v) ∧ r ≠ seed) rs vs →
  next (<[seed := QubitOperator_obj (foldl terms_imul s vs)]> h) = (Raised e, h') →
  inline_product seed (map mret rs ++ next :: rest) h = (Raised e, h').
Proof.
  apply (inline_loop_raises QubitOperator_imul terms_imul inline_product); try done.
  apply QubitOperator_imul_run.
Qed.

End Loops.

Lemma operators_store_others :
  Forall2 (λ r v, operators_store !! r = Some (QubitOperator_obj v) ∧ r ≠ 0)
          [1] [{[ [(0, PX)] := c_half ]}].
Proof. repeat constructor. lia. Qed.

Lemma inline_sum_in_place_witness :
  inline_sum 0 (map mret [1]) operators_store
  = (Returned 0,
     <[0 := QubitOperator_obj
              (foldl terms_iadd {[ [] := c_one ]} [{[ [(0, PX)] := c_half ]}])]>
       operators_store).
Proof.
  apply (inline_sum_in_place operators_store 0 _ [1] _ eq_refl operators_store_others).
Defined.

Lemma inline_product_in_place_witness :
  inline_product 0 (map mret [1]) operators_store
  = (Returned 0,
     <[0 := QubitOperator_obj
              (foldl terms_imul {[ [] := c_one ]} [{[ [(0, PX)] := c_half ]}])]>
       operators_store).
Proof.
  apply (inline_product_in_place operators_store 0 _ [1] _ eq_refl operators_store_others).
Defined.

Lemma inline_sum_stops_at_exception_witness :
  inline_sum 0 (map mret [1] ++ raise KeyError :: [QubitOperator None c_one])
             operators_store
  = (Raised KeyError,
     <[0 := QubitOperator_obj
              (foldl terms_iadd {[ [] := c_one ]} [{[ [(0, PX)] := c_half ]}])]>
       operators_store).
Proof.
  apply (inline_sum_stops_at_exception operators_store _ 0 _ [1] _ _ _ KeyError
           eq_refl operators_store_others).
  reflexivity.
Defined.

Lemma inline_product_stops_at_exception_witness :
  inline_product 0 (map mret [1] ++ raise KeyError :: [QubitOperator None c_one])
                 operators_store
  = (Raised KeyError,
     <[0 := QubitOperator_obj
              (foldl terms_imul {[ [] := c_one ]} [{[ [(0, PX)] := c_half ]}])]>
       operators_store).
Proof.
  apply (inline_product_stops_at_exception operators_store _ 0 _ [1] _ _ _ KeyError
           eq_refl operators_store_others).
  reflexivity.
Defined.

(** ** The ladder operator and the term, as they act on the store *)

Section LadderFacts.
Context {C : Type} `{!Coefficient C}.

(** X5.  The three sets are read before any operator is created: when
    the tree does not answer at the mode index, [_transform_ladder_operator]
    raises the tree's error and leaves the store as it was. *)
Theorem transform_ladder_operator_out_of_range
    (h : list (object (C:=C))) (i a : nat) (fenwick_tree : loc) (tree : Fenwick) :
  h !! fenwick_tree = Some (FenwickTree_obj tree) →
  ¬ defined_at tree i →
  _transform_ladder_operator (i, a) fenwick_tree h = (Raised IndexError, h).
Proof.
  intros Ht Hundef. unfold _transform_ladder_operator. simpl.
  destruct (get_parity_set tree i) as [P|] eqn:HP; last first.
  { apply bind_raised. by rewrite (node_indices_run _ _ _ _ _ Ht), HP. }
  rewrite (bind_returned _ _ h (map index P) h)
    by by rewrite (node_indices_run _ _ _ _ _ Ht), HP.
  destruct (get_update_set tree i) as [U|] eqn:HU; last first.
  { apply bind_raised. by rewrite (node_indices_run _ _ _ _ _ Ht), HU. }
  rewrite (bind_returned _ _ h (map index U) h)
    by by rewrite (node_indices_run _ _ _ _ _ Ht), HU.
  destruct (get_remainder_set tree i) as [R|] eqn:HR; last first.
  { apply bind_raised. by rewrite (node_indices_run _ _ _ _ _ Ht), HR. }
  destruct Hundef. unfold defined_at. by rewrite HP, HU, HR.
Qed.

(** X6.  [_transform_ladder_operator] changes no object of the store and
    adds three: the "d" component, the "c" component and, last, their
    sum, which it returns.  The sum is made on a copy: the "c" component
    is left as built. *)
Theorem transform_ladder_operator_store
    (h : list (object (C:=C))) (i a : nat) (fenwick_tree : loc) (tree : Fenwick)
    (P U R : list FenwickNode) :
  h !! fenwick_tree = Some (FenwickTree_obj tree) →
  get_parity_set tree i = Some P →
  get_update_set tree i = Some U →
  get_remainder_set tree i = Some R →
  let c := c_component i (map index P) (map index U) in
  let d := d_component i a (map index R) (map index U) in
  _transform_ladder_operator (i, a) fenwick_tree h
  = (Returned (length h + 2),
     h ++ [QubitOperator_obj d; QubitOperator_obj c; QubitOperator_obj (terms_iadd c d)]).
Proof.
  intros Ht HP HU HR c d. unfold _transform_ladder_operator. simpl.
  rewrite (bind_returned _ _ h (map index P) h)
    by by rewrite (node_indices_run _ _ _ _ _ Ht), HP.
  rewrite (bind_returned _ _ h (map index U) h)
    by by rewrite (node_indices_run _ _ _ _ _ Ht), HU.
  rewrite (bind_returned _ _ h (map index R) h)
    by by rewrite (node_indices_run _ _ _ _ _ Ht), HR.
  run_with (QubitOperator_run _ _ h).
  run_with (QubitOperator_run _ _ _).
  rewrite (QubitOperator_add_run _ _ _ c d).
  - rewrite !length_app. simpl. rewrite <- !(assoc_L (++)). simpl.
    do 2 f_equal. lia.
  - apply lookup_fresh.
  - apply lookup_app_l_Some, lookup_fresh.
Qed.

(** X7.  The action of a ladder operator changes nothing but the
    coefficient of the "d" component: for two actions on the same mode,
    the operators returned have the same Pauli terms, and where their
    coefficients differ the term carries Y on the mode. *)
Theorem transform_ladder_operator_action
    (h : list (object (C:=C))) (i a a' : nat) (fenwick_tree : loc) (tree : Fenwick) :
  h !! fenwick_tree = Some (FenwickTree_obj tree) →
  defined_at tree i →
  ∃ r h1 T r' h2 T',
    _transform_ladder_operator (i, a) fenwick_tree h = (Returned r, h1) ∧
    h1 !! r = Some (QubitOperator_obj T) ∧
    _transform_ladder_operator (i, a') fenwick_tree h = (Returned r', h2) ∧
    h2 !! r' = Some (QubitOperator_obj T') ∧
    dom T = dom T' ∧
    ∀ key, T !! key ≠ T' !! key → (i, PY) ∈ key.
Proof.
  intros Ht Hdef.
  destruct (_transform_ladder_operator_produces h (i, a) _ _ Ht) as (h1 & _ & Hrun).
  destruct (_transform_ladder_operator_produces h (i, a') _ _ Ht) as (h2 & _ & Hrun').
  rewrite ladder_value_defined in Hrun, Hrun' by done.
  destruct Hrun as (r & Hrun & _ & Hr). destruct Hrun' as (r' & Hrun' & _ & Hr').
  exists r, h1, (ladder_expression tree (i, a)), r', h2, (ladder_expression tree (i, a')).
  do 4 (split; [done|]).
  unfold ladder_expression. simpl. rewrite !majorana_sum. split.
  - by rewrite !dom_insert_L.
  - intros key Hkey.
    destruct (decide (key = sort_term ((i, PY) ::
                map (λ r, (r, PZ)) (indices (get_remainder_set tree i)) ++
                map (λ u, (u, PX)) (indices (get_update_set tree i))))) as [->|Hne].
    + rewrite sort_term_perm. left.
    + by rewrite !lookup_insert_ne in Hkey.
Qed.

(** X8.  The empty term (the identity) becomes the identity scaled by the
    coefficient; the tree is not consulted, whatever [fenwick_tree]
    refers to. *)
Theorem transform_operator_term_identity
    (h : list (object (C:=C))) (coefficient : C) (fenwick_tree : loc) :
  _transform_operator_term [] coefficient fenwick_tree h
  = (Returned (length h), h ++ [QubitOperator_obj {[ [] := coefficient ]}]).
Proof.
  unfold _transform_operator_term. by run_with (QubitOperator_run _ _ h).
Qed.

End LadderFacts.

Lemma transform_ladder_operator_out_of_range_witness :
  _transform_ladder_operator (C:=GaussQ) (1, 0) 0 tree_store
  = (Raised IndexError, tree_store).
Proof.
  apply (transform_ladder_operator_out_of_range tree_store 1 0 0 (small_fenwick 1)).
  - reflexivity.
  - intros [[P HP] _]. vm_compute in HP. discriminate HP.
Defined.

Lemma transform_ladder_operator_store_witness :
  _transform_ladder_operator (C:=GaussQ) (0, 1) 0 tree_store
  = (Returned 3,
     tree_store ++
       [QubitOperator_obj (d_component 0 1 [] []); QubitOperator_obj (c_component 0 [] []);
        QubitOperator_obj (terms_iadd (c_component 0 [] []) (d_component 0 1 [] []))]).
Proof.
  apply (transform_ladder_operator_store tree_store 0 1 0 (small_fenwick 1) [] [] []);
    reflexivity.
Defined.

Lemma transform_ladder_operator_action_witness :
  ∃ r h1 T r' h2 T',
    _transform_ladder_operator (C:=GaussQ) (0, 0) 0 tree_store = (Returned r, h1) ∧
    h1 !! r = Some (QubitOperator_obj T) ∧
    _transform_ladder_operator (0, 1) 0 tree_store = (Returned r', h2) ∧
    h2 !! r' = Some (QubitOperator_obj T') ∧
    dom T = dom T' ∧
    ∀ key, T !! key ≠ T' !! key → (0, PY) ∈ key.
Proof.
  apply (transform_ladder_operator_action tree_store 0 0 1 0 (small_fenwick 1)).
  - reflexivity.
  - apply small_fenwick_in_range. simpl. lia.
Defined.

(** ** The outcomes of the transform *)

Section OutcomeFacts.
Context {C : Type} `{!Coefficient C}.
Variable fenwick : Z → Fenwick.

Lemma ladder_value_cases (tree : Fenwick) (ladder_operator : LadderOperator) :
  (defined_at tree ladder_operator.1 ∧
   ∃ v, ladder_value (C:=C) tree ladder_operator = Returned v) ∨
  (¬ defined_at tree ladder_operator.1 ∧
   ladder_value (C:=C) tree ladder_operator = Raised IndexError).
Proof.
  unfold ladder_value, defined_at.
  destruct (get_parity_set _ _); simpl;
    [destruct (get_update_set _ _); simpl;
       [destruct (get_remainder_set _ _); simpl|]|].
  - left. split; [by repeat split|by eexists].
  - right. split; [|done]. intros (_ & _ & []). done.
  - right. split; [|done]. intros (_ & [] & _). done.
  - right. split; [|done]. intros ([] & _). done.
Qed.

(** A fold of values that can only fail with [IndexError] returns when
    all of them do, and fails with [IndexError] otherwise. *)
Lemma fold_value_cases
    (op : gmap PauliTerm C → gmap PauliTerm C → gmap PauliTerm C)
    {X} (g : X → outcome (gmap PauliTerm C)) (P : X → Prop) (xs : list X) :
  (∀ x, x ∈ xs →
        (P x ∧ ∃ v, g x = Returned v) ∨ (¬ P x ∧ g x = Raised IndexError)) →
  ∀ seed,
    (Forall P xs ∧ ∃ v, fold_value op seed (map g xs) = Returned v) ∨
    (Exists (λ x, ¬ P x) xs ∧ fold_value op seed (map g xs) = Raised IndexError).
Proof.
  induction xs as [|x xs IH]; intros Hg seed; simpl.
  - left. split; [done|by eexists].
  - destruct (Hg x) as [[HP [v Hv]]|[HP He]]; [by left| |].
    + rewrite Hv. simpl.
      destruct (IH (λ y Hy, Hg y (list_elem_of_further _ _ _ Hy)) (op seed v))
        as [[Hall Hret]|[Hex Hraise]].
      * left. split; [by constructor|done].
      * right. split; [by right|done].
    + rewrite He. simpl. right. split; [by left|done].
Qed.

Lemma term_value_cases (tree : Fenwick) (term : FermionTerm) (coefficient : C) :
  (Forall (λ ladder_operator, defined_at tree ladder_operator.1) term ∧
   ∃ v, term_value tree term coefficient = Returned v) ∨
  (Exists (λ ladder_operator, ¬ defined_at tree ladder_operator.1) term ∧
   term_value tree term coefficient = Raised IndexError).
Proof.
  apply fold_value_cases. intros lo _. apply ladder_value_cases.
Qed.

(** What a run returns or raises, read off its value. *)
Lemma bravyi_kitaev_run_value (h : list (object (C:=C))) operator terms n_qubits :
  h !! operator = Some (FermionOperator_obj terms) →
  match transform_value fenwick terms n_qubits with
  | Returned v =>
      ∃ r, (bravyi_kitaev fenwick operator n_qubits h).1 = Returned r ∧
           (bravyi_kitaev fenwick operator n_qubits h).2 !! r
           = Some (QubitOperator_obj v)
  | Raised e => (bravyi_kitaev fenwick operator n_qubits h).1 = Raised e
  end.
Proof.
  intros Ho.
  destruct (bravyi_kitaev_produces fenwick h operator terms n_qubits Ho)
    as (h' & _ & Hrun).
  destruct (transform_value _ _ _) as [v|e].
  - destruct Hrun as (r & -> & _ & Hr). by exists r.
  - by rewrite Hrun.
Qed.

(** X9.  On a [FermionOperator], [bravyi_kitaev] ends in one of three
    ways.  It returns, and then the qubit count fits and the tree has
    answered at every mode the operator mentions.  Or it raises
    'Invalid number of qubits specified.', and the count is too small.
    Or it raises the tree's out-of-range error, and the count fits but
    the tree does not answer at a mode of the operator.  Reading
    [operator.terms[term]] never fails. *)
Theorem bravyi_kitaev_outcomes
    (h : list (object (C:=C))) (operator : loc) (terms : list (FermionTerm * C))
    (n_qubits : option Z) :
  h !! operator = Some (FermionOperator_obj terms) →
  let n := resolved_n_qubits terms n_qubits in
  let answered :=
    ∀ term coefficient ladder_operator,
      (term, coefficient) ∈ terms → ladder_operator ∈ term →
      defined_at (fenwick n) ladder_operator.1 in
  match (bravyi_kitaev fenwick operator n_qubits h).1 with
  | Returned _ => (Z.of_nat (qubits_needed terms) ≤ n)%Z ∧ answered
  | Raised e =>
      (e = ValueError "Invalid number of qubits specified." ∧
       (n < Z.of_nat (qubits_needed terms))%Z) ∨
      (e = IndexError ∧ (Z.of_nat (qubits_needed terms) ≤ n)%Z ∧ ¬ answered)
  end.
Proof.
  intros Ho n answered.
  pose proof (bravyi_kitaev_run_value h operator terms n_qubits Ho) as Hrun.
  unfold transform_value in Hrun. fold (resolved_n_qubits terms n_qubits) in Hrun.
  fold n in Hrun.
  destruct (decide (n < _)%Z) as [Hsmall|Hfit].
  { rewrite Hrun. by left. }
  destruct (fold_value_cases terms_iadd
              (λ term, match getitem term terms with
                       | Some coefficient => term_value (fenwick n) term coefficient
                       | None => Raised KeyError
                       end)
              (λ term, Forall (λ lo, defined_at (fenwick n) lo.1) term)
              terms.*1) with (seed := (∅ : gmap PauliTerm C))
    as [[Hall [v Hv]]|[Hex He]].
  - intros term Hkey. destruct (getitem_key _ _ Hkey) as [coefficient ->].
    destruct (term_value_cases (fenwick n) term coefficient) as [?|[Hex ?]];
      [by left|right].
    split; [|done]. intros Hall. apply Exists_exists in Hex as (lo & Hlo & Hundef).
    by apply Hundef, (proj1 (Forall_forall _ _) Hall).
  - rewrite Hv in Hrun. destruct Hrun as (r & -> & _).
    split; [lia|]. intros term coefficient lo Hterm Hlo.
    assert (term ∈ terms.*1) as Hkey
      by (apply list_elem_of_fmap; by exists (term, coefficient)).
    pose proof (proj1 (Forall_forall _ _) Hall _ Hkey) as Hdef. simpl in Hdef.
    by apply (proj1 (Forall_forall _ _) Hdef).
  - rewrite He in Hrun. rewrite Hrun. right. split; [done|]. split; [lia|].
    intros Hans. apply Exists_exists in Hex as (term & Hkey & Hundef).
    apply Hundef, Forall_forall. intros lo Hlo.
    apply list_elem_of_fmap in Hkey as ([term' coefficient] & -> & Hterm).
    by eapply Hans.
Qed.

End OutcomeFacts.

Lemma bravyi_kitaev_outcomes_witness :
  match (bravyi_kitaev small_fenwick 0 (Some 1%Z) mode_1_store).1 with
  | Returned _ =>
      (Z.of_nat (qubits_needed lowering_on_mode_1) ≤
       resolved_n_qubits lowering_on_mode_1 (Some 1%Z))%Z ∧
      ∀ term coefficient ladder_operator,
        (term, coefficient) ∈ lowering_on_mode_1 →
        ladder_operator ∈ term →
        defined_at
          (small_fenwick
             (resolved_n_qubits lowering_on_mode_1
                                (Some 1%Z)))
          ladder_operator.1
  | Raised e =>
      (e = ValueError "Invalid number of qubits specified." ∧
       (resolved_n_qubits lowering_on_mode_1 (Some 1%Z)
        < Z.of_nat (qubits_needed lowering_on_mode_1))%Z) ∨
      (e = IndexError ∧
       (Z.of_nat (qubits_needed lowering_on_mode_1) ≤
        resolved_n_qubits lowering_on_mode_1 (Some 1%Z))%Z ∧
       ¬ ∀ term coefficient ladder_operator,
           (term, coefficient) ∈ lowering_on_mode_1 →
           ladder_operator ∈ term →
           defined_at
             (small_fenwick
                (resolved_n_qubits lowering_on_mode_1
                                   (Some 1%Z)))
             ladder_operator.1)
  end.
Proof.
  apply (bravyi_kitaev_outcomes small_fenwick mode_1_store 0 _ (Some 1%Z)).
  reflexivity.
Defined.

(** ** The objects the transform creates *)

Section CreationFacts.
Context {C : Type} `{!Coefficient C}.
Variable fenwick : Z → Fenwick.

(** X10.  Past the check, the first object [bravyi_kitaev] creates is the
    tree for the qubit count in use, and it is still there when the call
    ends, returning or raising; what the call returns is the object
    created next, so never the input nor any object that existed
    before. *)
Theorem bravyi_kitaev_builds_tree_first
    (h : list (object (C:=C))) (operator : loc) (terms : list (FermionTerm * C))
    (n_qubits : option Z) :
  h !! operator = Some (FermionOperator_obj terms) →
  (Z.of_nat (qubits_needed terms) ≤ resolved_n_qubits terms n_qubits)%Z →
  (bravyi_kitaev fenwick operator n_qubits h).2 !! length h
  = Some (FenwickTree_obj (fenwick (resolved_n_qubits terms n_qubits))) ∧
  ∀ r, (bravyi_kitaev fenwick operator n_qubits h).1 = Returned r →
       r = length h + 1.
Proof.
  intros Ho Hfit. unfold bravyi_kitaev.
  run_with (resolve_n_qubits_run h operator terms n_qubits Ho).
  run_with (count_qubits_lookup _ _ _ Ho).
  fold (resolved_n_qubits terms n_qubits).
  set (n := resolved_n_qubits terms n_qubits) in *.
  rewrite decide_False by lia.
  set (tree := fenwick n).
  set (h1 := h ++ [FenwickTree_obj tree]).
  assert (h1 !! operator = Some (FermionOperator_obj terms)) as Ho1
    by by apply lookup_app_l_Some.
  assert (h1 !! length h = Some (FenwickTree_obj tree)) as Ht1
    by apply lookup_fresh.
  unfold FenwickTree.
  rewrite (bind_returned (alloc _) _ h (length h) h1 eq_refl).
  run_with (fermion_terms_lookup _ _ _ Ho1).
  run_with (QubitOperator_run _ _ h1).
  cbn [from_option].
  assert (∀ term (h2 : list object), term ∈ terms.*1 → h1 `prefix_of` h2 →
            produces (coefficient ← terms_getitem operator term;
                      _transform_operator_term term coefficient (length h))
                     (match getitem term terms with
                      | Some coefficient => term_value tree term coefficient
                      | None => Raised KeyError
                      end) h2) as Hgen.
  { intros term h2 Hin Hh2.
    destruct (getitem_key _ _ Hin) as [coefficient Hterm]. rewrite Hterm.
    eapply produces_bind.
    - eapply terms_getitem_lookup; [|done]. by eapply prefix_lookup_Some.
    - apply _transform_operator_term_produces. by eapply prefix_lookup_Some. }
  destruct (inline_sum_run h1 terms.*1 _ _ Hgen
              (h1 ++ [QubitOperator_obj ∅]) (length h1) ∅)
    as (h' & Hh & Hlen & Hrun);
    [by apply prefix_app_r|done|apply lookup_fresh|].
  assert (length h1 = length h + 1) as Hlen1
    by (unfold h1; rewrite length_app; simpl; lia).
  revert Hrun. destruct (fold_value _ _ _) as [v|e].
  - intros [-> _]. simpl. split; [by eapply prefix_lookup_Some|].
    intros r [= <-]. done.
  - intros ->. simpl. split; [by eapply prefix_lookup_Some|done].
Qed.

Lemma transform_value_single_term (term : FermionTerm) (coefficient : C)
    (n_qubits : option Z) :
  (Z.of_nat (qubits_needed [(term, coefficient)])
   ≤ resolved_n_qubits [(term, coefficient)] n_qubits)%Z →
  transform_value fenwick [(term, coefficient)] n_qubits
  = term_value (fenwick (resolved_n_qubits [(term, coefficient)] n_qubits))
               term coefficient.
Proof.
  intros Hfit. unfold transform_value.
  fold (resolved_n_qubits [(term, coefficient)] n_qubits).
  rewrite decide_False by lia.
  cbn [fmap list_fmap fst map]. rewrite getitem_head. simpl.
  destruct (term_value _ _ _); simpl; [|done].
  by rewrite terms_iadd_empty_l.
Qed.

(** X11.  The identity term alone, with any coefficient, is mapped to the
    identity with that coefficient, for every qubit count that is not
    negative and whatever the tree. *)
Theorem bravyi_kitaev_identity_term
    (h : list (object (C:=C))) (operator : loc) (coefficient : C)
    (n_qubits : option Z) :
  h !! operator = Some (FermionOperator_obj [([], coefficient)]) →
  (0 ≤ default 0 n_qubits)%Z →
  ∃ r h',
    bravyi_kitaev fenwick operator n_qubits h = (Returned r, h') ∧
    h' !! r = Some (QubitOperator_obj {[ [] := coefficient ]}).
Proof.
  intros Ho Hn.
  destruct (bravyi_kitaev_produces fenwick h operator _ n_qubits Ho)
    as (h' & _ & Hrun).
  rewrite (transform_value_single_term [] coefficient n_qubits) in Hrun; last first.
  { unfold resolved_n_qubits. by destruct n_qubits. }
  destruct Hrun as (r & Hrun & _ & Hr). by exists r, h'.
Qed.

(** X12.  On an operator with a single term: with a qubit count below
    what the term needs, [bravyi_kitaev] raises 'Invalid number of qubits
    specified.'; otherwise it gives what [_transform_operator_term] gives
    for that term, its coefficient and the tree of the qubit count in
    use: operators with the same terms, or the same exception. *)
Theorem bravyi_kitaev_single_term
    (h h2 : list (object (C:=C))) (operator fenwick_tree : loc)
    (term : FermionTerm) (coefficient : C) (n_qubits : option Z) :
  h !! operator = Some (FermionOperator_obj [(term, coefficient)]) →
  h2 !! fenwick_tree
  = Some (FenwickTree_obj
            (fenwick (resolved_n_qubits [(term, coefficient)] n_qubits))) →
  let whole := bravyi_kitaev fenwick operator n_qubits h in
  let part := _transform_operator_term term coefficient fenwick_tree h2 in
  if decide (resolved_n_qubits [(term, coefficient)] n_qubits
             < Z.of_nat (qubits_needed [(term, coefficient)]))%Z
  then whole.1 = Raised (ValueError "Invalid number of qubits specified.")
  else
    match whole.1, part.1 with
    | Returned r, Returned r2 =>
        ∃ result, whole.2 !! r = Some (QubitOperator_obj result) ∧
                  part.2 !! r2 = Some (QubitOperator_obj result)
    | Raised e, Raised e2 => e = e2
    | _, _ => False
    end.
Proof.
  intros Ho Ht whole part. subst whole part.
  destruct (bravyi_kitaev_produces fenwick h operator _ n_qubits Ho)
    as (h' & _ & Hrun).
  case_decide as Hn.
  { unfold transform_value in Hrun.
    fold (resolved_n_qubits [(term, coefficient)] n_qubits) in Hrun.
    rewrite decide_True in Hrun by done. by rewrite Hrun. }
  rewrite (transform_value_single_term term coefficient n_qubits) in Hrun by lia.
  destruct (_transform_operator_term_produces h2 term coefficient _ _ Ht)
    as (h2' & _ & Hrun2).
  destruct (term_value _ _ _) as [v|e].
  - destruct Hrun as (r & -> & _ & Hr). destruct Hrun2 as (r2 & -> & _ & Hr2).
    simpl. by exists v.
  - by rewrite Hrun, Hrun2.
Qed.

End CreationFacts.

Lemma bravyi_kitaev_builds_tree_first_witness :
  (bravyi_kitaev small_fenwick 0 None number_store).2 !! length number_store
  = Some (FenwickTree_obj (small_fenwick (resolved_n_qubits number_operator_0 None))) ∧
  ∀ r, (bravyi_kitaev small_fenwick 0 None number_store).1 = Returned r →
       r = length number_store + 1.
Proof.
  apply (bravyi_kitaev_builds_tree_first small_fenwick number_store 0
           number_operator_0 None).
  - reflexivity.
  - by vm_compute.
Defined.

Lemma bravyi_kitaev_identity_term_witness :
  ∃ r h',
    bravyi_kitaev small_fenwick 0 (Some 3%Z) identity_store = (Returned r, h') ∧
    h' !! r = Some (QubitOperator_obj {[ [] := c_half_j ]}).
Proof.
  apply (bravyi_kitaev_identity_term small_fenwick identity_store 0 c_half_j (Some 3%Z)).
  - reflexivity.
  - simpl. lia.
Defined.

Lemma bravyi_kitaev_single_term_witness :
  (let whole := bravyi_kitaev small_fenwick 0 None number_store in
   let part := _transform_operator_term [(0, 1); (0, 0)] c_one 0 tree_store in
   if decide (resolved_n_qubits number_operator_0 None
              < Z.of_nat (qubits_needed number_operator_0))%Z
   then whole.1 = Raised (ValueError "Invalid number of qubits specified.")
   else
     match whole.1, part.1 with
     | Returned r, Returned r2 =>
         ∃ result, whole.2 !! r = Some (QubitOperator_obj result) ∧
                   part.2 !! r2 = Some (QubitOperator_obj result)
     | Raised e, Raised e2 => e = e2
     | _, _ => False
     end) ∧
  (let whole := bravyi_kitaev small_fenwick 0 (Some 0%Z) number_store in
   let part := _transform_operator_term [(0, 1); (0, 0)] c_one 0
                 [FenwickTree_obj (small_fenwick 0)] in
   if decide (resolved_n_qubits number_operator_0 (Some 0%Z)
              < Z.of_nat (qubits_needed number_operator_0))%Z
   then whole.1 = Raised (ValueError "Invalid number of qubits specified.")
   else
     match whole.1, part.1 with
     | Returned r, Returned r2 =>
         ∃ result, whole.2 !! r = Some (QubitOperator_obj result) ∧
                   part.2 !! r2 = Some (QubitOperator_obj result)
     | Raised e, Raised e2 => e = e2
     | _, _ => False
     end).
Proof.
  split.
  - apply (bravyi_kitaev_single_term small_fenwick number_store tree_store 0 0
             [(0, 1); (0, 0)] c_one None); reflexivity.
  - apply (bravyi_kitaev_single_term small_fenwick number_store
             [FenwickTree_obj (small_fenwick 0)] 0 0
             [(0, 1); (0, 0)] c_one (Some 0%Z)); reflexivity.
Defined.

(** ** How many Pauli terms the transform produces *)

Section SizeFacts.
Context {C : Type} `{!Coefficient C}.
Variable fenwick : Z → Fenwick.

Lemma accumulate_size (result : gmap PauliTerm C) (entry : PauliTerm * C) :
  size (accumulate result entry) ≤ S (size result).
Proof.
  unfold accumulate.
  rewrite (partial_alter_ext _
             (λ _, add_coefficients (result !! entry.1) (Some entry.2)))
    by (intros old Hold; by rewrite Hold).
  destruct (add_coefficients _ _) as [c|].
  - change (size (<[entry.1 := c]> result) ≤ S (size result)).
    rewrite map_size_insert. destruct (result !! entry.1); simpl; lia.
  - change (size (delete entry.1 result) ≤ S (size result)).
    rewrite map_size_delete. destruct (result !! entry.1); simpl; lia.
Qed.

Lemma foldl_accumulate_size (entries : list (PauliTerm * C)) :
  ∀ result : gmap PauliTerm C,
    size (foldl accumulate result entries) ≤ size result + length entries.
Proof.
  induction entries as [|entry entries IH]; intros result; simpl; [lia|].
  specialize (IH (accumulate result entry)).
  pose proof (accumulate_size result entry). lia.
Qed.

Lemma length_pairs {A B X} (f : A → B → X) (la : list A) (lb : list B) :
  length (l ← la; r ← lb; [f l r]) = length la * length lb.
Proof.
  assert (∀ l, length (r ← lb; [f l r]) = length lb) as Hinner.
  { intros l. induction lb as [|b lb IH]; [done|].
    rewrite bind_cons, length_app, IH. done. }
  induction la as [|a la IH]; [done|].
  rewrite bind_cons, length_app, IH, Hinner. done.
Qed.

Lemma terms_imul_size (self multiplier : gmap PauliTerm C) :
  size (terms_imul self multiplier) ≤ size self * size multiplier.
Proof.
  unfold terms_imul.
  etrans; [apply foldl_accumulate_size|].
  rewrite map_size_empty, length_pairs, !length_map_to_list. done.
Qed.

Lemma terms_iadd_size (self addend : gmap PauliTerm C) :
  size (terms_iadd self addend) ≤ size self + size addend.
Proof.
  rewrite <- !(size_dom (D:=gset PauliTerm)).
  assert (dom (terms_iadd self addend) ⊆ dom self ∪ dom addend) as Hsub.
  { intros key. rewrite elem_of_union, !elem_of_dom, terms_iadd_lookup.
    destruct (self !! key), (addend !! key); simpl; intros [? ?]; eauto; done. }
  etrans; [by apply subseteq_size|].
  rewrite size_union_alt.
  assert (size (dom addend ∖ dom self) ≤ size (dom addend))
    by (apply subseteq_size; intros key [Hkey _]%elem_of_difference; done).
  lia.
Qed.

Lemma ladder_value_size (tree : Fenwick) (ladder_operator : LadderOperator)
    (v : gmap PauliTerm C) :
  ladder_value tree ladder_operator = Returned v → size v = 2.
Proof.
  destruct (ladder_value_cases (C:=C) tree ladder_operator) as [[Hdef _]|[_ He]];
    [|by rewrite He].
  rewrite ladder_value_defined by done. intros [= <-].
  unfold ladder_expression. rewrite majorana_sum.
  rewrite map_size_insert_None, map_size_singleton; [done|].
  apply lookup_singleton_ne, majorana_keys_differ.
Qed.

Lemma fold_imul_size (values : list (outcome (gmap PauliTerm C))) :
  Forall (λ p, ∀ w, p = Returned w → size w ≤ 2) values →
  ∀ seed v,
    fold_value terms_imul seed values = Returned v →
    size v ≤ size seed * 2 ^ length values.
Proof.
  induction 1 as [|p values Hp _ IH]; intros seed v; simpl.
  - intros [= <-]. lia.
  - destruct p as [w|e]; simpl; [|done]. intros Hv.
    specialize (IH _ _ Hv). specialize (Hp w eq_refl).
    pose proof (terms_imul_size seed w). nia.
Qed.

Lemma term_value_size (tree : Fenwick) (term : FermionTerm) (coefficient : C)
    (v : gmap PauliTerm C) :
  term_value tree term coefficient = Returned v → size v ≤ 2 ^ length term.
Proof.
  intros Hv. apply fold_imul_size in Hv.
  - unfold single_term in Hv. rewrite map_size_singleton, length_map in Hv. lia.
  - apply Forall_forall. intros p Hp w ->.
    apply list_elem_of_In, in_map_iff in Hp as (lo & Hlo & _).
    by rewrite (ladder_value_size _ _ _ Hlo).
Qed.

Lemma fold_iadd_size {X} (g : X → outcome (gmap PauliTerm C)) (bound : X → nat)
    (xs : list X) :
  (∀ x w, g x = Returned w → size w ≤ bound x) →
  ∀ seed v,
    fold_value terms_iadd seed (map g xs) = Returned v →
    size v ≤ size seed + sum_list (map bound xs).
Proof.
  intros Hg. induction xs as [|x xs IH]; intros seed v; simpl.
  - intros [= <-]. lia.
  - destruct (g x) as [w|e] eqn:Hx; simpl; [|done]. intros Hv.
    specialize (IH _ _ Hv). specialize (Hg _ _ Hx).
    pose proof (terms_iadd_size seed w). lia.
Qed.

(** X13.  A term of [k] ladder operators is mapped to an operator of at
    most [2 ^ k] Pauli terms: each ladder operator contributes two, and
    the product has at most one term for each choice. *)
Theorem transform_operator_term_size
    (h : list (object (C:=C))) (term : FermionTerm) (coefficient : C)
    (fenwick_tree : loc) (tree : Fenwick) :
  h !! fenwick_tree = Some (FenwickTree_obj tree) →
  match (_transform_operator_term term coefficient fenwick_tree h).1 with
  | Returned r =>
      ∃ result,
        (_transform_operator_term term coefficient fenwick_tree h).2 !! r
        = Some (QubitOperator_obj result) ∧
        size result ≤ 2 ^ length term
  | Raised _ => True
  end.
Proof.
  intros Ht.
  destruct (_transform_operator_term_produces h term coefficient _ _ Ht)
    as (h' & _ & Hrun).
  destruct (term_value _ _ _) as [v|e] eqn:Hv.
  - destruct Hrun as (r & -> & _ & Hr). simpl.
    exists v. split; [done|]. by eapply term_value_size.
  - by rewrite Hrun.
Qed.

(** X14.  The operator [bravyi_kitaev] returns has at most as many Pauli
    terms as the sum, over the terms of the input, of [2 ^ k] for a term
    of [k] ladder operators. *)
Theorem bravyi_kitaev_size
    (h : list (object (C:=C))) (operator : loc) (terms : list (FermionTerm * C))
    (n_qubits : option Z) :
  h !! operator = Some (FermionOperator_obj terms) →
  match (bravyi_kitaev fenwick operator n_qubits h).1 with
  | Returned r =>
      ∃ result,
        (bravyi_kitaev fenwick operator n_qubits h).2 !! r
        = Some (QubitOperator_obj result) ∧
        size result ≤ sum_list (map (λ entry, 2 ^ length entry.1) terms)
  | Raised _ => True
  end.
Proof.
  intros Ho.
  pose proof (bravyi_kitaev_run_value fenwick h operator terms n_qubits Ho) as Hrun.
  destruct (transform_value _ _ _) as [v|e] eqn:Hv; [|by rewrite Hrun].
  destruct Hrun as (r & -> & Hr). exists v. split; [done|].
  unfold transform_value in Hv. case_decide; [done|].
  apply (fold_iadd_size _ (λ term, 2 ^ length term)) in Hv.
  - by rewrite map_size_empty, map_keys in Hv.
  - intros term w. destruct (getitem term terms); [|done].
    apply term_value_size.
Qed.

End SizeFacts.

Lemma transform_operator_term_size_witness :
  match (_transform_operator_term [(0, 1); (0, 0)] c_one 0 tree_store).1 with
  | Returned r =>
      ∃ result,
        (_transform_operator_term [(0, 1); (0, 0)] c_one 0 tree_store).2 !! r
        = Some (QubitOperator_obj result) ∧
        size result ≤ 2 ^ length [(0, 1); (0, 0)]
  | Raised _ => True
  end.
Proof.
  apply (transform_operator_term_size tree_store [(0, 1); (0, 0)] c_one 0
           (small_fenwick 1)).
  reflexivity.
Defined.

Lemma bravyi_kitaev_size_witness :
  match (bravyi_kitaev small_fenwick 0 None number_store).1 with
  | Returned r =>
      ∃ result,
        (bravyi_kitaev small_fenwick 0 None number_store).2 !! r
        = Some (QubitOperator_obj result) ∧
        size result
        ≤ sum_list (map (λ entry, 2 ^ length entry.1) number_operator_0)
  | Raised _ => True
  end.
Proof.
  apply (bravyi_kitaev_size small_fenwick number_store 0 number_operator_0 None).
  reflexivity.
Defined.

(** ** What the store is to the transform *)

Section StoreFacts.
Context {C : Type} `{!Coefficient C}.
Variable fenwick : Z → Fenwick.

(** X15.  The transform depends on the items of its input's dict and on
    their order only: run on two operators whose dicts yield the same
    items in the same order, whichever objects they are and whatever else
    the two stores hold, [bravyi_kitaev] returns operators with the same
    terms, or raises the same exception.  (The order does matter, see
    [bravyi_kitaev_order_matters].) *)
Theorem bravyi_kitaev_depends_on_terms
    (h1 h2 : list (object (C:=C))) (operator1 operator2 : loc)
    (terms : list (FermionTerm * C)) (n_qubits : option Z) :
  h1 !! operator1 = Some (FermionOperator_obj terms) →
  h2 !! operator2 = Some (FermionOperator_obj terms) →
  let first := bravyi_kitaev fenwick operator1 n_qubits h1 in
  let second := bravyi_kitaev fenwick operator2 n_qubits h2 in
  match first.1, second.1 with
  | Returned r1, Returned r2 =>
      ∃ result, first.2 !! r1 = Some (QubitOperator_obj result) ∧
                second.2 !! r2 = Some (QubitOperator_obj result)
  | Raised e1, Raised e2 => e1 = e2
  | _, _ => False
  end.
Proof.
  intros Ho1 Ho2 first second. subst first second.
  pose proof (bravyi_kitaev_run_value fenwick h1 operator1 terms n_qubits Ho1) as Hrun1.
  pose proof (bravyi_kitaev_run_value fenwick h2 operator2 terms n_qubits Ho2) as Hrun2.
  destruct (transform_value _ _ _) as [v|e].
  - destruct Hrun1 as (r1 & -> & Hr1). destruct Hrun2 as (r2 & -> & Hr2).
    by exists v.
  - by rewrite Hrun1, Hrun2.
Qed.

(** X16.  [_transform_operator_term] changes no object that existed, the
    tree included, whether it returns or raises; what it returns is the
    seed, the first object it creates. *)
Theorem transform_operator_term_frame
    (h : list (object (C:=C))) (term : FermionTerm) (coefficient : C)
    (fenwick_tree : loc) (tree : Fenwick) :
  h !! fenwick_tree = Some (FenwickTree_obj tree) →
  h `prefix_of` (_transform_operator_term term coefficient fenwick_tree h).2 ∧
  ∀ r, (_transform_operator_term term coefficient fenwick_tree h).1 = Returned r →
       r = length h.
Proof.
  intros Ht. unfold _transform_operator_term.
  run_with (QubitOperator_run _ _ h). simpl.
  assert (∀ x (h1 : list object), x ∈ term → h `prefix_of` h1 →
            produces (_transform_ladder_operator x fenwick_tree)
                     (ladder_value tree x) h1) as Hgen.
  { intros x h1 _ Hh1. apply _transform_ladder_operator_produces.
    by eapply prefix_lookup_Some. }
  destruct (inline_product_run h term _ _ Hgen
              (h ++ [QubitOperator_obj (single_term [] coefficient)])
              (length h) (single_term [] coefficient))
    as (h' & Hh & Hlen & Hrun);
    [by apply prefix_app_r|done|apply lookup_fresh|].
  revert Hrun. destruct (fold_value _ _ _) as [v|e].
  - intros [-> _]. simpl. split; [done|]. by intros r [= <-].
  - intros ->. simpl. by split.
Qed.

End StoreFacts.

Lemma bravyi_kitaev_depends_on_terms_witness :
  let first := bravyi_kitaev small_fenwick 0 None number_store in
  let second := bravyi_kitaev small_fenwick 1 None shifted_number_store in
  match first.1, second.1 with
  | Returned r1, Returned r2 =>
      ∃ result, first.2 !! r1 = Some (QubitOperator_obj result) ∧
                second.2 !! r2 = Some (QubitOperator_obj result)
  | Raised e1, Raised e2 => e1 = e2
  | _, _ => False
  end.
Proof.
  apply (bravyi_kitaev_depends_on_terms small_fenwick number_store shifted_number_store
           0 1 number_operator_0 None); reflexivity.
Defined.

Lemma transform_operator_term_frame_witness :
  tree_store `prefix_of` (_transform_operator_term [(0, 1); (0, 0)] c_one 0 tree_store).2 ∧
  ∀ r, (_transform_operator_term [(0, 1); (0, 0)] c_one 0 tree_store).1 = Returned r →
       r = length tree_store.
Proof.
  apply (transform_operator_term_frame tree_store [(0, 1); (0, 0)] c_one 0
           (small_fenwick 1)).
  reflexivity.
Defined.
